(** * Base64 codec (base64.cpp): a shallow embedding and its properties

    The embedding follows [src/base64.cpp] function by function.

    Data model.
    - A [char] is an [ascii]; a [std::string] / [std::string_view] is a
      [list ascii].  [code c] is the value of [c] seen as [unsigned char].
    - [size_t] is 64 bits wide and [unsigned int] is 32 bits wide (the LP64
      and LLP64 data models).  A [size_t] that holds a position inside a
      string, plus a small constant, never wraps (the length of a string is
      below [2^63]), so such values are plain [Z].  The encoder keeps its
      cursor in an [unsigned int]: that cursor is a [Z] reduced modulo
      [2^32] after every operation, see [u32].
    - A call either returns a value or fails: [runtime_error] and
      [out_of_range] are the two C++ exceptions the file can throw,
      [nontermination] is a loop that never leaves (on a machine it runs
      until the result string cannot grow any more), [undefined_behaviour]
      an unchecked subscript outside its object.
    - [reserve] calls change no result and are left out. *)

From Stdlib Require Import String Ascii.
From Stdlib Require Import ZArith List Bool Lia.
Import ListNotations.

Local Open Scope Z_scope.

Module Base64.

(** ** Outcomes *)

Inductive failure : Set :=
| runtime_error          (* std::runtime_error: the spec's InvalidInputError *)
| out_of_range           (* std::out_of_range, thrown by [at] *)
| nontermination
| undefined_behaviour.

Inductive outcome (A : Type) : Type :=
| Ret (a : A)
| Fail (f : failure).

Arguments Ret {A} a.
Arguments Fail {A} f.

Definition bind {A B : Type} (m : outcome A) (k : A -> outcome B) : outcome B :=
  match m with
  | Ret a => k a
  | Fail f => Fail f
  end.

Notation "x <- m ;; k" := (bind m (fun x => k))
  (at level 61, m at next level, right associativity).

(** ** Characters and machine integers *)

Definition code (c : ascii) : Z := Z.of_N (N_of_ascii c).

(** [static_cast<std::string::value_type>(z)]: the low eight bits. *)
Definition chr (z : Z) : ascii := ascii_of_N (Z.to_N (z mod 256)).

(** [static_cast<size_t>(c)] for a [char]: [char] is signed, so a code of
    128 or more is a negative [char] and converts to a value just below
    [2^64].  (With an unsigned [char] the value would be the code itself;
    in both cases it is at least 128.) *)
Definition size_t_of_char (c : ascii) : Z :=
  if code c <? 128 then code c else code c - 256 + 2 ^ 64.

(** Arithmetic on [unsigned int]. *)
Definition u32 (z : Z) : Z := z mod 2 ^ 32.

Definition str (s : string) : list ascii := list_ascii_of_string s.

Definition len {A : Type} (l : list A) : Z := Z.of_nat (length l).

(** [s.at(i)]: bounds-checked, throws [std::out_of_range]. *)
Definition at_ {A : Type} (s : list A) (i : Z) : outcome A :=
  if (0 <=? i) && (i <? len s) then
    match nth_error s (Z.to_nat i) with
    | Some x => Ret x
    | None => Fail out_of_range
    end
  else Fail out_of_range.

(** [s[i]]: unchecked. *)
Definition subscript {A : Type} (s : list A) (i : Z) : outcome A :=
  if (0 <=? i) && (i <? len s) then
    match nth_error s (Z.to_nat i) with
    | Some x => Ret x
    | None => Fail undefined_behaviour
    end
  else Fail undefined_behaviour.

(** ** The alphabets and the reverse table *)

Definition encode_table : list ascii :=
  str "ABCDEFGHIJKLMNOPQRSTUVWXYZabcdefghijklmnopqrstuvwxyz0123456789+/".

Definition encode_table_url : list ascii :=
  str "ABCDEFGHIJKLMNOPQRSTUVWXYZabcdefghijklmnopqrstuvwxyz0123456789-_".

Definition max_encode_char : Z := size_t_of_char "z" + 1.

Definition decode_placeholder : Z := 255.

(** [ret.at(i) = v].  Outside the array [at] throws, which inside a constant
    expression stops the compilation; the array is left as it is here. *)
Fixpoint array_set (ret : list Z) (i : nat) (v : Z) : list Z :=
  match ret, i with
  | [], _ => []
  | _ :: tl, O => v :: tl
  | x :: tl, S i' => x :: array_set tl i' v
  end.

Definition array_store (ret : list Z) (i : Z) (v : Z) : list Z :=
  if (0 <=? i) && (i <? len ret) then array_set ret (Z.to_nat i) v else ret.

(** The [for_each] with its captured [offset]: the state is the array and
    the counter. *)
Definition generate_decode_table (s : list ascii) : list Z :=
  fst (fold_left
         (fun (st : list Z * Z) (ch : ascii) =>
            let (ret, offset) := st in
            (array_store ret (size_t_of_char ch) offset, offset + 1))
         s
         (repeat decode_placeholder (Z.to_nat max_encode_char), 0)).

Definition decode_table : list Z := generate_decode_table encode_table.

Definition pos_of_char (c : ascii) : outcome Z :=
  if max_encode_char <=? size_t_of_char c then Fail runtime_error
  else
    val <- at_ decode_table (size_t_of_char c) ;;
    if val =? decode_placeholder then Fail runtime_error else Ret val.

(** ** insert_linebreaks *)

Definition newline : ascii := "010".

(** [str.insert(pos, "\n")]; the loop only calls it with [pos < str.size()]. *)
Definition insert_at (s : list ascii) (pos : Z) (c : ascii) : list ascii :=
  firstn (Z.to_nat pos) s ++ c :: skipn (Z.to_nat pos) s.

Fixpoint insert_loop (fuel : nat) (s : list ascii) (pos distance : Z)
  : outcome (list ascii) :=
  if pos <? len s then
    match fuel with
    | O => Fail nontermination
    | S fuel' =>
        insert_loop fuel' (insert_at s pos newline) (pos + (distance + 1)) distance
    end
  else Ret s.

Definition insert_linebreaks (s : list ascii) (distance : Z) : outcome (list ascii) :=
  if len s =? 0 then Ret []
  else insert_loop (length s) s distance distance.

(** ** base64_encode *)

Definition trailing_char (url : bool) : ascii := if url then "." else "=".

Definition base64_chars_ (url : bool) : list ascii :=
  if url then encode_table_url else encode_table.

(** [bytes_to_encode[i]]: the string read as [unsigned char]. *)
Definition bytes_to_encode (s : list ascii) (i : Z) : outcome Z :=
  c <- subscript s i ;; Ret (code c).

(** The body of the [while] loop of [base64_encode], up to [pos += 3]: it
    returns the new [ret].  [pos] is an [unsigned int], so [pos + k] is taken
    modulo [2^32] before it is compared with [in_len] or used as a
    subscript. *)
Definition encode_round (url : bool) (s : list ascii) (pos : Z) (ret : list ascii)
  : outcome (list ascii) :=
  let in_len := len s in
  let chars := base64_chars_ url in
  b0 <- bytes_to_encode s (u32 (pos + 0)) ;;
  c0 <- subscript chars (Z.shiftr (Z.land b0 0xfc) 2) ;;
  let ret := ret ++ [c0] in
  if u32 (pos + 1) <? in_len then
    b0 <- bytes_to_encode s (u32 (pos + 0)) ;;
    b1 <- bytes_to_encode s (u32 (pos + 1)) ;;
    c1 <- subscript chars
            (Z.shiftl (Z.land b0 0x03) 4 + Z.shiftr (Z.land b1 0xf0) 4) ;;
    let ret := ret ++ [c1] in
    if u32 (pos + 2) <? in_len then
      b1 <- bytes_to_encode s (u32 (pos + 1)) ;;
      b2 <- bytes_to_encode s (u32 (pos + 2)) ;;
      c2 <- subscript chars
              (Z.shiftl (Z.land b1 0x0f) 2 + Z.shiftr (Z.land b2 0xc0) 6) ;;
      b2 <- bytes_to_encode s (u32 (pos + 2)) ;;
      c3 <- subscript chars (Z.land b2 0x3f) ;;
      Ret (ret ++ [c2] ++ [c3])
    else
      b1 <- bytes_to_encode s (u32 (pos + 1)) ;;
      c2 <- subscript chars (Z.shiftl (Z.land b1 0x0f) 2) ;;
      Ret (ret ++ [c2] ++ [trailing_char url])
  else
    b0 <- bytes_to_encode s (u32 (pos + 0)) ;;
    c1 <- subscript chars (Z.shiftl (Z.land b0 0x03) 4) ;;
    Ret (ret ++ [c1] ++ [trailing_char url] ++ [trailing_char url]).

(** [while (pos < in_len) { ...; pos += 3; }] *)
Fixpoint encode_loop (fuel : nat) (url : bool) (s : list ascii) (pos : Z)
  (ret : list ascii) : outcome (list ascii) :=
  if pos <? len s then
    match fuel with
    | O => Fail nontermination
    | S fuel' =>
        ret' <- encode_round url s pos ret ;;
        encode_loop fuel' url s (u32 (pos + 3)) ret'
    end
  else Ret ret.

(** One round consumes three bytes, so a loop that leaves at all leaves
    within [length s] rounds ([encode_loop_fuel]): the fuel below loses
    nothing. *)
Definition base64_encode (s : list ascii) (url : bool) : outcome (list ascii) :=
  encode_loop (length s) url s 0 [].

Definition base64_encode_pem (s : list ascii) : outcome (list ascii) :=
  e <- base64_encode s false ;; insert_linebreaks e 64.

Definition base64_encode_mime (s : list ascii) : outcome (list ascii) :=
  e <- base64_encode s false ;; insert_linebreaks e 76.

(** ** base64_decode *)

Definition is_padding (c : ascii) : bool :=
  Ascii.eqb c "=" || Ascii.eqb c ".".

(** [(i < length_of_string) && s.at(i) != '=' && s.at(i) != '.'], with the
    short-circuit evaluation of [&&]. *)
Definition has_data_at (s : list ascii) (i : Z) : outcome bool :=
  if i <? len s then
    c <- at_ s i ;;
    if Ascii.eqb c "=" then Ret false
    else
      c' <- at_ s i ;;
      Ret (negb (Ascii.eqb c' "."))
  else Ret false.

(** The body of the [while] loop of [base64_decode], up to [pos += 4]. *)
Definition decode_round (s : list ascii) (pos : Z) (ret : list ascii)
  : outcome (list ascii) :=
  c1 <- at_ s (pos + 1) ;;
  pos_of_char_1 <- pos_of_char c1 ;;
  c0 <- at_ s (pos + 0) ;;
  pos_of_char_0 <- pos_of_char c0 ;;
  let ret :=
    ret ++ [chr (Z.shiftl pos_of_char_0 2
                 + Z.shiftr (Z.land pos_of_char_1 0x30) 4)] in
  two <- has_data_at s (pos + 2) ;;
  if two then
    c2 <- at_ s (pos + 2) ;;
    pos_of_char_2 <- pos_of_char c2 ;;
    let ret :=
      ret ++ [chr (Z.shiftl (Z.land pos_of_char_1 0x0f) 4
                   + Z.shiftr (Z.land pos_of_char_2 0x3c) 2)] in
    three <- has_data_at s (pos + 3) ;;
    if three then
      c3 <- at_ s (pos + 3) ;;
      pos_of_char_3 <- pos_of_char c3 ;;
      Ret (ret ++ [chr (Z.shiftl (Z.land pos_of_char_2 0x03) 6
                        + pos_of_char_3)])
    else Ret ret
  else Ret ret.

(** [while (pos < length_of_string) { ...; pos += 4; }] *)
Fixpoint decode_loop (fuel : nat) (s : list ascii) (pos : Z) (ret : list ascii)
  : outcome (list ascii) :=
  if pos <? len s then
    match fuel with
    | O => Fail nontermination
    | S fuel' =>
        ret' <- decode_round s pos ret ;;
        decode_loop fuel' s (pos + 4) ret'
    end
  else Ret ret.

(** [copy.erase(std::remove(copy.begin(), copy.end(), c), copy.end())] *)
Definition erase_remove (c : ascii) (s : list ascii) : list ascii :=
  filter (fun x => negb (Ascii.eqb x c)) s.

Definition is_empty {A : Type} (s : list A) : bool :=
  match s with [] => true | _ => false end.

(** [base64_decode(s, false)]: the part of the function after the two early
    returns.  One round consumes four characters, so [length s] rounds are
    enough ([decode_loop_chunks]). *)
Definition decode_scan (s : list ascii) : outcome (list ascii) :=
  decode_loop (length s) s 0 [].

Definition base64_decode (encoded_string : list ascii) (remove_linebreaks : bool)
  : outcome (list ascii) :=
  if is_empty encoded_string then Ret []
  else if remove_linebreaks then
    let copy := erase_remove newline encoded_string in
    (* the call [base64_decode(copy, false)] *)
    if is_empty copy then Ret [] else decode_scan copy
  else decode_scan encoded_string.

(** ** List-recursive forms of the two loops

    These follow the rounds of the loops on the part of the string that is
    still to be read; [encode_loop_chunks] and [decode_loop_chunks] relate
    them to the loops above. *)

(** [base64_chars_[i]] for an index known to be below 64. *)
Definition alphabet_char (url : bool) (i : Z) : ascii :=
  nth (Z.to_nat i) (base64_chars_ url) "A"%char.

Fixpoint encode_chunks (url : bool) (s : list ascii) : list ascii :=
  match s with
  | [] => []
  | [a] =>
      [alphabet_char url (Z.shiftr (Z.land (code a) 0xfc) 2);
       alphabet_char url (Z.shiftl (Z.land (code a) 0x03) 4);
       trailing_char url; trailing_char url]
  | [a; b] =>
      [alphabet_char url (Z.shiftr (Z.land (code a) 0xfc) 2);
       alphabet_char url (Z.shiftl (Z.land (code a) 0x03) 4
                          + Z.shiftr (Z.land (code b) 0xf0) 4);
       alphabet_char url (Z.shiftl (Z.land (code b) 0x0f) 2);
       trailing_char url]
  | a :: b :: c :: rest =>
      alphabet_char url (Z.shiftr (Z.land (code a) 0xfc) 2)
      :: alphabet_char url (Z.shiftl (Z.land (code a) 0x03) 4
                            + Z.shiftr (Z.land (code b) 0xf0) 4)
      :: alphabet_char url (Z.shiftl (Z.land (code b) 0x0f) 2
                            + Z.shiftr (Z.land (code c) 0xc0) 6)
      :: alphabet_char url (Z.land (code c) 0x3f)
      :: encode_chunks url rest
  end.

(** One round of the decoder on the characters [c0 c1 c2 c3] of its chunk;
    [c2] and [c3] are [None] past the end of the string. *)
Definition decode_group (c0 c1 : ascii) (c2 c3 : option ascii)
  : outcome (list ascii) :=
  p1 <- pos_of_char c1 ;;
  p0 <- pos_of_char c0 ;;
  let o0 := chr (Z.shiftl p0 2 + Z.shiftr (Z.land p1 0x30) 4) in
  match c2 with
  | None => Ret [o0]
  | Some c2 =>
      if is_padding c2 then Ret [o0]
      else
        p2 <- pos_of_char c2 ;;
        let o1 := chr (Z.shiftl (Z.land p1 0x0f) 4
                       + Z.shiftr (Z.land p2 0x3c) 2) in
        match c3 with
        | None => Ret [o0; o1]
        | Some c3 =>
            if is_padding c3 then Ret [o0; o1]
            else
              p3 <- pos_of_char c3 ;;
              Ret [o0; o1; chr (Z.shiftl (Z.land p2 0x03) 6 + p3)]
        end
  end.

Fixpoint decode_chunks (s : list ascii) : outcome (list ascii) :=
  match s with
  | [] => Ret []
  | [_] => Fail out_of_range
  | [c0; c1] => decode_group c0 c1 None None
  | [c0; c1; c2] => decode_group c0 c1 (Some c2) None
  | c0 :: c1 :: c2 :: c3 :: rest =>
      o <- decode_group c0 c1 (Some c2) (Some c3) ;;
      r <- decode_chunks rest ;;
      Ret (o ++ r)
  end.

(** ** Vocabulary of the statements *)

(** [ceil(n / 3) * 4] *)
Definition encoded_length (n : Z) : Z := (n + 2) / 3 * 4.

(** The decoder looks a character up in the reverse table when it is the
    first or second of its chunk, the third and no padding character, or the
    fourth, no padding character, and preceded by a third that is no padding
    character either. *)
Definition looked_up (s : list ascii) (i : nat) : bool :=
  match nth_error s i with
  | None => false
  | Some c =>
      match (i mod 4)%nat with
      | 0%nat | 1%nat => true
      | 2%nat => negb (is_padding c)
      | _ =>
          negb (is_padding c)
          && match nth_error s (i - 1) with
             | Some c' => negb (is_padding c')
             | None => false
             end
      end
  end.

Definition in_alphabet (url : bool) (c : ascii) : bool :=
  existsb (Ascii.eqb c) (base64_chars_ url).

(** The first output byte of a chunk, from its first two characters; the
    second character is looked up first, as in the loop. *)
Definition first_byte (c0 c1 : ascii) : outcome ascii :=
  p1 <- pos_of_char c1 ;;
  p0 <- pos_of_char c0 ;;
  Ret (chr (Z.shiftl p0 2 + Z.shiftr (Z.land p1 0x30) 4)).

(** The string the decoder scans: the input, without its newlines when the
    flag is set. *)
Definition stripped (s : list ascii) (remove_linebreaks : bool) : list ascii :=
  if remove_linebreaks then erase_remove newline s else s.

(** The characters the encoder can write: the alphabet and its padding
    character. *)
Definition encoded_char (url : bool) (c : ascii) : bool :=
  in_alphabet url c || Ascii.eqb c (trailing_char url).

(** The two characters that only the URL-safe alphabet has. *)
Definition url_only (c : ascii) : bool :=
  Ascii.eqb c "-" || Ascii.eqb c "_".

(** A string of [2^32] zero bytes (4 GiB). *)
Definition four_GiB : list ascii := repeat zero (Z.to_nat (2 ^ 32)).

(** [base64_decode(base64_encode(s, url), remove_linebreaks)] *)
Definition decode_of_encode (s : list ascii) (url remove_linebreaks : bool)
  : outcome (list ascii) :=
  e <- base64_encode s url ;; base64_decode e remove_linebreaks.

(** [base64_decode(base64_encode_mime(s), true)] *)
Definition decode_of_encode_mime (s : list ascii) : outcome (list ascii) :=
  e <- base64_encode_mime s ;; base64_decode e true.

(** [base64_decode(base64_encode_pem(s), true)] *)
Definition decode_of_encode_pem (s : list ascii) : outcome (list ascii) :=
  e <- base64_encode_pem s ;; base64_decode e true.

(** The URL-safe counterpart of a character of a standard encoding: the last
    two characters of the alphabet and the padding character change. *)
Definition to_url (c : ascii) : ascii :=
  if Ascii.eqb c "+" then "-"
  else if Ascii.eqb c "/" then "_"
  else if Ascii.eqb c "=" then "."
  else c.

(** An encoding without its padding characters. *)
Definition unpadded (e : list ascii) : list ascii :=
  filter (fun c => negb (is_padding c)) e.

(** The position of a character in an alphabet. *)
Fixpoint index_of (c : ascii) (l : list ascii) : option Z :=
  match l with
  | [] => None
  | x :: tl =>
      if Ascii.eqb c x then Some 0
      else match index_of c tl with
           | Some i => Some (i + 1)
           | None => None
           end
  end.

(** List-recursive form of the loop of [insert_linebreaks]: [d] characters,
    a newline, and so on while more than [d] characters are left. *)
Fixpoint lines (fuel : nat) (d : nat) (s : list ascii) : list ascii :=
  match fuel with
  | O => s
  | S fuel' =>
      if (length s <=? d)%nat then s
      else firstn d s ++ newline :: lines fuel' d (skipn d s)
  end.

(** * Properties *)

(** ** Lists, three and four elements at a time *)

Lemma list_ind3 {A : Type} (P : list A -> Prop) :
  P [] -> (forall a, P [a]) -> (forall a b, P [a; b]) ->
  (forall a b c l, P l -> P (a :: b :: c :: l)) ->
  forall l, P l.
Proof.
  intros H0 H1 H2 H3 l.
  enough (P l /\ (forall a, P (a :: l)) /\ (forall a b, P (a :: b :: l)))
    by tauto.
  induction l as [|x l [IH0 [IH1 IH2]]]; auto.
Qed.

Lemma list_ind4 {A : Type} (P : list A -> Prop) :
  P [] -> (forall a, P [a]) -> (forall a b, P [a; b]) ->
  (forall a b c, P [a; b; c]) ->
  (forall a b c d l, P l -> P (a :: b :: c :: d :: l)) ->
  forall l, P l.
Proof.
  intros H0 H1 H2 H3 H4 l.
  enough (P l /\ (forall a, P (a :: l)) /\ (forall a b, P (a :: b :: l))
          /\ (forall a b c, P (a :: b :: c :: l))) by tauto.
  induction l as [|x l [IH0 [IH1 [IH2 IH3]]]]; auto.
Qed.

(** ** Bytes and six-bit values *)

Lemma code_range (c : ascii) : 0 <= code c < 256.
Proof.
  unfold code.
  pose proof (N_ascii_bounded c) as H.
  lia.
Qed.

Lemma chr_code (c : ascii) : chr (code c) = c.
Proof.
  unfold chr.
  rewrite Z.mod_small by apply code_range.
  unfold code. rewrite N2Z.id. apply ascii_N_embedding.
Qed.

(** The masks and shifts of the encoder, as quotients and remainders. *)
Lemma byte_bits (c : ascii) :
  Z.shiftr (Z.land (code c) 0xfc) 2 = code c / 4
  /\ Z.shiftl (Z.land (code c) 0x03) 4 = code c mod 4 * 16
  /\ Z.shiftr (Z.land (code c) 0xf0) 4 = code c / 16
  /\ Z.shiftl (Z.land (code c) 0x0f) 2 = code c mod 16 * 4
  /\ Z.shiftr (Z.land (code c) 0xc0) 6 = code c / 64
  /\ Z.land (code c) 0x3f = code c mod 64.
Proof.
  destruct c as [[] [] [] [] [] [] [] []]; vm_compute; intuition congruence.
Qed.

Lemma below_64_cases (i : Z) :
  0 <= i < 64 -> exists n, (n < 64)%nat /\ i = Z.of_nat n.
Proof.
  intros H. exists (Z.to_nat i). lia.
Qed.

(** The masks and shifts of the decoder, as quotients and remainders. *)
Lemma sextet_bits (i : Z) :
  0 <= i < 64 ->
  Z.shiftl i 2 = i * 4
  /\ Z.shiftr (Z.land i 0x30) 4 = i / 16
  /\ Z.shiftl (Z.land i 0x0f) 4 = i mod 16 * 16
  /\ Z.shiftr (Z.land i 0x3c) 2 = i / 4
  /\ Z.shiftl (Z.land i 0x03) 6 = i mod 4 * 64.
Proof.
  intros H. destruct (below_64_cases i H) as [n [Hn ->]]. clear H.
  do 64 (destruct n as [|n]; [vm_compute; intuition congruence|]).
  lia.
Qed.

(** ** Reading strings *)

Lemma len_app {A : Type} (l1 l2 : list A) : len (l1 ++ l2) = len l1 + len l2.
Proof. unfold len. rewrite length_app. lia. Qed.

Lemma len_cons {A : Type} (x : A) (l : list A) : len (x :: l) = len l + 1.
Proof. unfold len. simpl length. lia. Qed.

Lemma len_nonneg {A : Type} (l : list A) : 0 <= len l.
Proof. unfold len. lia. Qed.

Lemma nth_error_past {A : Type} (pre suf : list A) (k : nat) :
  nth_error (pre ++ suf) (Z.to_nat (len pre + Z.of_nat k)) = nth_error suf k.
Proof.
  unfold len.
  replace (Z.to_nat (Z.of_nat (length pre) + Z.of_nat k))
    with (length pre + k)%nat by lia.
  rewrite nth_error_app2 by lia. f_equal. lia.
Qed.

Lemma in_bounds (i n : Z) : 0 <= i < n -> (0 <=? i) && (i <? n) = true.
Proof.
  intros H. apply andb_true_intro. split; [apply Z.leb_le | apply Z.ltb_lt]; lia.
Qed.

Lemma past_in_bounds {A : Type} (pre suf : list A) (k : nat) (x : A) :
  nth_error suf k = Some x ->
  0 <= len pre + Z.of_nat k < len (pre ++ suf).
Proof.
  intros H.
  assert (k < length suf)%nat by (apply nth_error_Some; congruence).
  rewrite len_app. unfold len. lia.
Qed.

Lemma at_past (pre suf : list ascii) (k : nat) (x : ascii) :
  nth_error suf k = Some x -> at_ (pre ++ suf) (len pre + Z.of_nat k) = Ret x.
Proof.
  intros H. unfold at_.
  rewrite in_bounds by (eapply past_in_bounds; eassumption).
  rewrite nth_error_past, H. reflexivity.
Qed.

Lemma at_beyond (s : list ascii) (i : Z) : len s <= i -> at_ s i = Fail out_of_range.
Proof.
  intros H. unfold at_.
  destruct (Z.ltb_spec i (len s)); [lia|].
  rewrite andb_false_r. reflexivity.
Qed.

Lemma subscript_past {A : Type} (pre suf : list A) (k : nat) (x : A) :
  nth_error suf k = Some x -> subscript (pre ++ suf) (len pre + Z.of_nat k) = Ret x.
Proof.
  intros H. unfold subscript.
  rewrite in_bounds by (eapply past_in_bounds; eassumption).
  rewrite nth_error_past, H. reflexivity.
Qed.

Lemma bytes_past (pre suf : list ascii) (k : nat) (x : ascii) :
  nth_error suf k = Some x ->
  bytes_to_encode (pre ++ suf) (len pre + Z.of_nat k) = Ret (code x).
Proof.
  intros H. unfold bytes_to_encode.
  rewrite (subscript_past pre suf k x H). reflexivity.
Qed.

(** ** The alphabets *)

Lemma subscript_alphabet (url : bool) (i : Z) :
  0 <= i < 64 -> subscript (base64_chars_ url) i = Ret (alphabet_char url i).
Proof.
  intros H. destruct (below_64_cases i H) as [n [Hn ->]]. clear H.
  destruct url;
    do 64 (destruct n as [|n]; [reflexivity|]); lia.
Qed.

Lemma pos_of_char_alphabet (i : Z) :
  0 <= i < 64 ->
  pos_of_char (alphabet_char false i) = Ret i
  /\ is_padding (alphabet_char false i) = false.
Proof.
  intros H. destruct (below_64_cases i H) as [n [Hn ->]]. clear H.
  do 64 (destruct n as [|n]; [split; reflexivity|]); lia.
Qed.

Lemma alphabet_char_in (url : bool) (i : Z) :
  0 <= i < 64 ->
  in_alphabet url (alphabet_char url i) = true
  /\ is_padding (alphabet_char url i) = false.
Proof.
  intros H. destruct (below_64_cases i H) as [n [Hn ->]]. clear H.
  destruct url;
    do 64 (destruct n as [|n]; [split; reflexivity|]); lia.
Qed.

(** What [pos_of_char] does on each of the 256 characters. *)
Lemma pos_of_char_cases (c : ascii) :
  (in_alphabet false c = true
   /\ exists v, 0 <= v < 64 /\ pos_of_char c = Ret v
                /\ alphabet_char false v = c)
  \/ (in_alphabet false c = false /\ pos_of_char c = Fail runtime_error).
Proof.
  destruct c as [[] [] [] [] [] [] [] []];
    first [ right; split; reflexivity
          | left; split; [reflexivity|];
            match goal with
            | |- exists v, _ /\ pos_of_char ?c = _ /\ _ =>
                let r := eval vm_compute in (pos_of_char c) in
                match r with
                | Ret ?v => exists v; vm_compute; intuition congruence
                end
            end ].
Qed.

(** ** The encoder *)

Lemma u32_small (z : Z) : 0 <= z < 2 ^ 32 -> u32 z = z.
Proof. intros H. unfold u32. apply Z.mod_small. exact H. Qed.

(** Every subscript into the alphabet is below 64. *)
Lemma index_ranges (a b : ascii) :
  0 <= Z.shiftr (Z.land (code a) 0xfc) 2 < 64
  /\ 0 <= Z.shiftl (Z.land (code a) 0x03) 4 < 64
  /\ 0 <= Z.shiftl (Z.land (code a) 0x03) 4
          + Z.shiftr (Z.land (code b) 0xf0) 4 < 64
  /\ 0 <= Z.shiftl (Z.land (code a) 0x0f) 2 < 64
  /\ 0 <= Z.shiftl (Z.land (code a) 0x0f) 2
          + Z.shiftr (Z.land (code b) 0xc0) 6 < 64
  /\ 0 <= Z.land (code a) 0x3f < 64.
Proof.
  destruct (byte_bits a) as (-> & -> & _ & -> & _ & ->).
  destruct (byte_bits b) as (_ & _ & -> & _ & -> & _).
  pose proof (code_range a). pose proof (code_range b).
  repeat split; Z.div_mod_to_equations; lia.
Qed.

Ltac alphabet_index :=
  match goal with
  | |- 0 <= ?e < 64 =>
      match e with
      | context [code ?a] =>
          match e with
          | context [Z.shiftr (Z.land (code ?b) _) _] =>
              pose proof (index_ranges a b); tauto
          | _ => pose proof (index_ranges a a); tauto
          end
      end
  end.

Lemma encode_round_three url pre a b c rest ret :
  len (pre ++ a :: b :: c :: rest) < 2 ^ 32 ->
  encode_round url (pre ++ a :: b :: c :: rest) (len pre) ret
  = Ret (ret ++ firstn 4 (encode_chunks url (a :: b :: c :: rest))).
Proof.
  intros Hlen.
  pose proof (len_nonneg pre) as Hpre.
  assert (Hsz : len (pre ++ a :: b :: c :: rest) = len pre + len rest + 3)
    by (rewrite len_app, !len_cons; lia).
  pose proof (len_nonneg rest) as Hrest.
  pose proof (bytes_past pre (a :: b :: c :: rest) 0 a eq_refl) as B0.
  pose proof (bytes_past pre (a :: b :: c :: rest) 1 b eq_refl) as B1.
  pose proof (bytes_past pre (a :: b :: c :: rest) 2 c eq_refl) as B2.
  simpl Z.of_nat in B0, B1, B2.
  unfold encode_round.
  rewrite !u32_small by lia.
  rewrite B0, B1, B2. cbn [bind].
  destruct (Z.ltb_spec (len pre + 1) (len (pre ++ a :: b :: c :: rest))); [|lia].
  destruct (Z.ltb_spec (len pre + 2) (len (pre ++ a :: b :: c :: rest))); [|lia].
  rewrite !subscript_alphabet by alphabet_index.
  cbn [bind]. rewrite <- !app_assoc. reflexivity.
Qed.

Lemma encode_round_two url pre a b ret :
  len (pre ++ [a; b]) < 2 ^ 32 ->
  encode_round url (pre ++ [a; b]) (len pre) ret
  = Ret (ret ++ encode_chunks url [a; b]).
Proof.
  intros Hlen.
  pose proof (len_nonneg pre) as Hpre.
  assert (Hsz : len (pre ++ [a; b]) = len pre + 2)
    by (rewrite len_app, !len_cons; unfold len; simpl; lia).
  pose proof (bytes_past pre [a; b] 0 a eq_refl) as B0.
  pose proof (bytes_past pre [a; b] 1 b eq_refl) as B1.
  simpl Z.of_nat in B0, B1.
  unfold encode_round.
  rewrite !(u32_small (len pre + 0)), !(u32_small (len pre + 1)) by lia.
  rewrite B0, B1. cbn [bind].
  destruct (Z.ltb_spec (len pre + 1) (len (pre ++ [a; b]))); [|lia].
  destruct (Z.ltb_spec (u32 (len pre + 2)) (len (pre ++ [a; b]))) as [Hlt|_].
  { rewrite u32_small in Hlt by lia. lia. }
  rewrite !subscript_alphabet by alphabet_index.
  cbn [bind]. rewrite <- !app_assoc. reflexivity.
Qed.

Lemma encode_round_one url pre a ret :
  len (pre ++ [a]) < 2 ^ 32 ->
  encode_round url (pre ++ [a]) (len pre) ret
  = Ret (ret ++ encode_chunks url [a]).
Proof.
  intros Hlen.
  pose proof (len_nonneg pre) as Hpre.
  assert (Hsz : len (pre ++ [a]) = len pre + 1)
    by (rewrite len_app, !len_cons; unfold len; simpl; lia).
  pose proof (bytes_past pre [a] 0 a eq_refl) as B0.
  simpl Z.of_nat in B0.
  unfold encode_round.
  rewrite !(u32_small (len pre + 0)) by lia.
  rewrite B0. cbn [bind].
  destruct (Z.ltb_spec (u32 (len pre + 1)) (len (pre ++ [a]))) as [Hlt|_].
  { rewrite u32_small in Hlt by lia. lia. }
  rewrite !subscript_alphabet by alphabet_index.
  cbn [bind]. rewrite <- !app_assoc. reflexivity.
Qed.

Lemma encode_loop_exit fuel url s pos ret :
  len s <= pos -> encode_loop fuel url s pos ret = Ret ret.
Proof.
  intros H. destruct fuel; simpl;
    destruct (Z.ltb_spec pos (len s)); try lia; reflexivity.
Qed.

Lemma encode_loop_step fuel url s pos ret :
  pos < len s ->
  encode_loop (S fuel) url s pos ret
  = (ret' <- encode_round url s pos ret ;;
     encode_loop fuel url s (u32 (pos + 3)) ret').
Proof.
  intros H. simpl. destruct (Z.ltb_spec pos (len s)); [reflexivity|lia].
Qed.

(** The loop on a string shorter than [2^32], started at a multiple of 3
    with the rest [suf] of the string before it: it returns, and what it
    appends is [encode_chunks] of the rest. *)
Lemma encode_loop_chunks url suf :
  forall pre ret fuel,
    len (pre ++ suf) < 2 ^ 32 ->
    (exists k, len pre = 3 * k) ->
    (length suf <= fuel)%nat ->
    encode_loop fuel url (pre ++ suf) (len pre) ret
    = Ret (ret ++ encode_chunks url suf).
Proof.
  induction suf as [|a|a b|a b c rest IH] using list_ind3;
    intros pre ret fuel Hlen [k Hk] Hfuel.
  - rewrite encode_loop_exit by (rewrite len_app; unfold len; simpl; lia).
    simpl. rewrite app_nil_r. reflexivity.
  - destruct fuel as [|fuel]; [simpl in Hfuel; lia|].
    assert (Hsz : len (pre ++ [a]) = len pre + 1)
      by (rewrite len_app; unfold len; simpl; lia).
    rewrite encode_loop_step by lia.
    rewrite encode_round_one by assumption. cbn [bind].
    pose proof (len_nonneg pre) as Hpre.
    change (2 ^ 32) with 4294967296 in Hlen.
    apply encode_loop_exit.
    rewrite u32_small; [|change (2 ^ 32) with 4294967296]; lia.
  - destruct fuel as [|fuel]; [simpl in Hfuel; lia|].
    assert (Hsz : len (pre ++ [a; b]) = len pre + 2)
      by (rewrite len_app; unfold len; simpl; lia).
    rewrite encode_loop_step by lia.
    rewrite encode_round_two by assumption. cbn [bind].
    pose proof (len_nonneg pre) as Hpre.
    change (2 ^ 32) with 4294967296 in Hlen.
    apply encode_loop_exit.
    rewrite u32_small; [|change (2 ^ 32) with 4294967296]; lia.
  - destruct fuel as [|fuel]; [simpl in Hfuel; lia|].
    assert (Hsz : len (pre ++ a :: b :: c :: rest) = len pre + len rest + 3)
      by (rewrite len_app, !len_cons; lia).
    pose proof (len_nonneg rest) as Hrest.
    pose proof (len_nonneg pre) as Hpre.
    rewrite encode_loop_step by lia.
    rewrite encode_round_three by assumption. cbn [bind].
    rewrite u32_small by lia.
    assert (Hpre3 : len (pre ++ [a; b; c]) = len pre + 3)
      by (rewrite len_app; unfold len; simpl; lia).
    replace (pre ++ a :: b :: c :: rest) with ((pre ++ [a; b; c]) ++ rest)
      by (rewrite <- app_assoc; reflexivity).
    rewrite <- Hpre3.
    rewrite IH.
    + simpl firstn. simpl encode_chunks. rewrite <- app_assoc. reflexivity.
    + rewrite <- app_assoc. simpl app. exact Hlen.
    + exists (k + 1). lia.
    + simpl in Hfuel. lia.
Qed.

Lemma subscript_in_bounds {A : Type} (s : list A) (i : Z) :
  0 <= i < len s -> exists x, subscript s i = Ret x.
Proof.
  intros H. unfold subscript. rewrite in_bounds by exact H.
  destruct (nth_error s (Z.to_nat i)) as [x|] eqn:E.
  - exists x. reflexivity.
  - apply nth_error_None in E. unfold len in H. lia.
Qed.

(** On a string of [2^32] bytes or more every wrapped cursor is a valid
    subscript, so a round always completes ... *)
Lemma encode_round_wrapped url s pos ret :
  2 ^ 32 <= len s -> exists ret', encode_round url s pos ret = Ret ret'.
Proof.
  intros Hs.
  assert (HB : forall z, exists x, bytes_to_encode s (u32 z) = Ret (code x)).
  { intros z. unfold bytes_to_encode.
    destruct (subscript_in_bounds s (u32 z)) as [x ->].
    - unfold u32. pose proof (Z.mod_pos_bound z (2 ^ 32)). lia.
    - exists x. reflexivity. }
  destruct (HB (pos + 0)) as [a B0].
  destruct (HB (pos + 1)) as [b B1].
  destruct (HB (pos + 2)) as [c B2].
  unfold encode_round. rewrite B0, B1, B2. cbn [bind].
  rewrite !subscript_alphabet by alphabet_index. cbn [bind].
  destruct (u32 (pos + 1) <? len s); [destruct (u32 (pos + 2) <? len s)|];
    rewrite ?subscript_alphabet by alphabet_index; cbn [bind]; eauto.
Qed.

(** ... and the cursor never reaches the length: no number of rounds lets
    the loop leave. *)
Lemma encode_loop_never_leaves url s :
  2 ^ 32 <= len s ->
  forall fuel pos ret,
    0 <= pos < 2 ^ 32 ->
    encode_loop fuel url s pos ret = Fail nontermination.
Proof.
  intros Hs fuel. induction fuel as [|fuel IH]; intros pos ret Hpos.
  - simpl. destruct (Z.ltb_spec pos (len s)); [reflexivity|lia].
  - rewrite encode_loop_step by lia.
    destruct (encode_round_wrapped url s pos ret Hs) as [ret' ->]. cbn [bind].
    apply IH. unfold u32. apply Z.mod_pos_bound. lia.
Qed.

Lemma encode_loop_from_start url s fuel :
  len s < 2 ^ 32 -> (length s <= fuel)%nat ->
  encode_loop fuel url s 0 [] = Ret (encode_chunks url s).
Proof.
  intros Hs Hfuel.
  apply (encode_loop_chunks url s [] [] fuel); auto.
  exists 0. reflexivity.
Qed.

(** The fuel of [base64_encode] loses nothing: more rounds change nothing. *)
Lemma encode_loop_fuel url s fuel :
  (length s <= fuel)%nat ->
  encode_loop fuel url s 0 [] = base64_encode s url.
Proof.
  intros Hfuel. unfold base64_encode.
  destruct (Z.lt_ge_cases (len s) (2 ^ 32)) as [Hs|Hs].
  - rewrite !encode_loop_from_start; auto.
  - rewrite !encode_loop_never_leaves; auto; lia.
Qed.

Lemma base64_encode_chunks s url :
  len s < 2 ^ 32 -> base64_encode s url = Ret (encode_chunks url s).
Proof.
  intros Hs. apply encode_loop_from_start; auto.
Qed.

Lemma base64_encode_hangs s url :
  2 ^ 32 <= len s -> base64_encode s url = Fail nontermination.
Proof.
  intros Hs. unfold base64_encode. apply encode_loop_never_leaves; auto. lia.
Qed.

Lemma len_four_GiB : len four_GiB = 2 ^ 32.
Proof.
  unfold len, four_GiB. rewrite repeat_length. apply Z2Nat.id. lia.
Qed.

(** ** The decoder *)

Lemma has_data_at_past (pre suf : list ascii) (k : nat) :
  has_data_at (pre ++ suf) (len pre + Z.of_nat k)
  = Ret (match nth_error suf k with
         | Some c => negb (is_padding c)
         | None => false
         end).
Proof.
  unfold has_data_at.
  destruct (nth_error suf k) as [c|] eqn:E.
  - pose proof (past_in_bounds pre suf k c E) as Hb.
    destruct (Z.ltb_spec (len pre + Z.of_nat k) (len (pre ++ suf))); [|lia].
    rewrite (at_past pre suf k c E). cbn [bind]. unfold is_padding.
    destruct (Ascii.eqb c "="); reflexivity.
  - apply nth_error_None in E.
    destruct (Z.ltb_spec (len pre + Z.of_nat k) (len (pre ++ suf))) as [Hlt|];
      [|reflexivity].
    rewrite len_app in Hlt. unfold len in Hlt. lia.
Qed.

Lemma bind_ret {A : Type} (m : outcome A) : (x <- m ;; Ret x) = m.
Proof. destruct m; reflexivity. Qed.

(** A round of the loop is [decode_group] on the characters of its chunk. *)
Lemma decode_round_group pre c0 c1 tl ret :
  decode_round (pre ++ c0 :: c1 :: tl) (len pre) ret
  = (o <- decode_group c0 c1 (nth_error tl 0) (nth_error tl 1) ;;
     Ret (ret ++ o)).
Proof.
  pose proof (at_past pre (c0 :: c1 :: tl) 0 c0 eq_refl) as A0.
  pose proof (at_past pre (c0 :: c1 :: tl) 1 c1 eq_refl) as A1.
  pose proof (has_data_at_past pre (c0 :: c1 :: tl) 2) as D2.
  pose proof (has_data_at_past pre (c0 :: c1 :: tl) 3) as D3.
  simpl Z.of_nat in A0, A1, D2, D3.
  unfold decode_round, decode_group.
  rewrite A0, A1, D2, D3. cbn [bind].
  destruct (pos_of_char c1) as [p1|]; [cbn [bind]|reflexivity].
  destruct (pos_of_char c0) as [p0|]; [cbn [bind]|reflexivity].
  destruct tl as [|c2 tl]; [reflexivity|].
  pose proof (at_past pre (c0 :: c1 :: c2 :: tl) 2 c2 eq_refl) as A2.
  simpl Z.of_nat in A2. rewrite A2.
  cbn [nth_error bind].
  destruct (is_padding c2); [reflexivity|]. cbn [negb bind].
  destruct (pos_of_char c2) as [p2|]; [cbn [bind]|reflexivity].
  destruct tl as [|c3 tl]; [rewrite <- app_assoc; reflexivity|].
  pose proof (at_past pre (c0 :: c1 :: c2 :: c3 :: tl) 3 c3 eq_refl) as A3.
  simpl Z.of_nat in A3. rewrite A3.
  cbn [nth_error bind].
  destruct (is_padding c3); [rewrite <- app_assoc; reflexivity|].
  cbn [negb bind].
  destruct (pos_of_char c3) as [p3|]; [cbn [bind]|reflexivity].
  rewrite <- !app_assoc. reflexivity.
Qed.

(** With one character left the access to the second one is refused. *)
Lemma decode_round_short pre c0 ret :
  decode_round (pre ++ [c0]) (len pre) ret = Fail out_of_range.
Proof.
  unfold decode_round. rewrite at_beyond; [reflexivity|].
  rewrite len_app. unfold len. simpl. lia.
Qed.

Lemma decode_loop_exit fuel s pos ret :
  len s <= pos -> decode_loop fuel s pos ret = Ret ret.
Proof.
  intros H. destruct fuel; simpl;
    destruct (Z.ltb_spec pos (len s)); try lia; reflexivity.
Qed.

Lemma decode_loop_step fuel s pos ret :
  pos < len s ->
  decode_loop (S fuel) s pos ret
  = (ret' <- decode_round s pos ret ;; decode_loop fuel s (pos + 4) ret').
Proof.
  intros H. simpl. destruct (Z.ltb_spec pos (len s)); [reflexivity|lia].
Qed.

(** The loop, started with the rest [suf] of the string before it, appends
    [decode_chunks] of the rest or fails as [decode_chunks] does; it never
    runs out of rounds. *)
Lemma decode_loop_chunks suf :
  forall pre ret fuel,
    (length suf <= fuel)%nat ->
    decode_loop fuel (pre ++ suf) (len pre) ret
    = (r <- decode_chunks suf ;; Ret (ret ++ r)).
Proof.
  induction suf as [|a|a b|a b c|a b c d rest IH] using list_ind4;
    intros pre ret fuel Hfuel.
  - rewrite decode_loop_exit by (rewrite len_app; unfold len; simpl; lia).
    simpl. rewrite app_nil_r. reflexivity.
  - destruct fuel as [|fuel]; [simpl in Hfuel; lia|].
    rewrite decode_loop_step by (rewrite len_app; unfold len; simpl; lia).
    rewrite decode_round_short. reflexivity.
  - destruct fuel as [|fuel]; [simpl in Hfuel; lia|].
    rewrite decode_loop_step by (rewrite len_app; unfold len; simpl; lia).
    rewrite decode_round_group. cbn [nth_error decode_chunks].
    destruct (decode_group a b None None) as [o|]; [cbn [bind]|reflexivity].
    apply decode_loop_exit. rewrite len_app. unfold len. simpl. lia.
  - destruct fuel as [|fuel]; [simpl in Hfuel; lia|].
    rewrite decode_loop_step by (rewrite len_app; unfold len; simpl; lia).
    rewrite decode_round_group. cbn [nth_error decode_chunks].
    destruct (decode_group a b (Some c) None) as [o|]; [cbn [bind]|reflexivity].
    apply decode_loop_exit. rewrite len_app. unfold len. simpl. lia.
  - destruct fuel as [|fuel]; [simpl in Hfuel; lia|].
    rewrite decode_loop_step by (rewrite len_app, !len_cons; unfold len; lia).
    rewrite decode_round_group. cbn [nth_error decode_chunks].
    destruct (decode_group a b (Some c) (Some d)) as [o|];
      [cbn [bind]|reflexivity].
    assert (Hpre4 : len (pre ++ [a; b; c; d]) = len pre + 4)
      by (rewrite len_app; unfold len; simpl; lia).
    replace (pre ++ a :: b :: c :: d :: rest) with ((pre ++ [a; b; c; d]) ++ rest)
      by (rewrite <- app_assoc; reflexivity).
    rewrite <- Hpre4.
    rewrite IH by (simpl in Hfuel; lia).
    destruct (decode_chunks rest) as [r|]; [cbn [bind]|reflexivity].
    rewrite <- app_assoc. reflexivity.
Qed.

Lemma decode_scan_chunks s : decode_scan s = decode_chunks s.
Proof.
  unfold decode_scan.
  transitivity (r <- decode_chunks s ;; Ret ([] ++ r)).
  - exact (decode_loop_chunks s [] [] (length s) (le_n _)).
  - apply bind_ret.
Qed.

Lemma base64_decode_chunks s : base64_decode s false = decode_chunks s.
Proof.
  unfold base64_decode. destruct s as [|c s]; [reflexivity|].
  cbn [is_empty]. apply decode_scan_chunks.
Qed.

Lemma base64_decode_strip s :
  base64_decode s true = decode_chunks (erase_remove newline s).
Proof.
  unfold base64_decode. destruct s as [|c s]; [reflexivity|].
  cbn [is_empty].
  destruct (erase_remove newline (c :: s)) as [|c' s']; [reflexivity|].
  cbn [is_empty]. apply decode_scan_chunks.
Qed.

Lemma base64_decode_stripped (s : list ascii) (strip : bool) :
  base64_decode s strip = decode_chunks (stripped s strip).
Proof.
  destruct strip; [apply base64_decode_strip | apply base64_decode_chunks].
Qed.

(** ** Decoding what the encoder wrote (standard alphabet) *)

(** Rewrite the encoder's masks and shifts on the byte [a]. *)
Ltac byte_divmod a :=
  let H := fresh "H" in
  pose proof (byte_bits a) as H;
  destruct H as (?B1 & ?B2 & ?B3 & ?B4 & ?B5 & ?B6);
  rewrite ?B1, ?B2, ?B3, ?B4, ?B5, ?B6 in *;
  clear B1 B2 B3 B4 B5 B6.

(** Rewrite the decoder's masks and shifts on the six-bit value [i]. *)
Ltac sextet_divmod i :=
  let H := fresh "H" in
  assert (H : 0 <= i < 64) by (Z.div_mod_to_equations; lia);
  destruct (sextet_bits i H) as (?S1 & ?S2 & ?S3 & ?S4 & ?S5);
  rewrite ?S1, ?S2, ?S3, ?S4, ?S5;
  clear S1 S2 S3 S4 S5 H.

Lemma regroup (a b c : ascii) :
  let i0 := Z.shiftr (Z.land (code a) 0xfc) 2 in
  let i1 := Z.shiftl (Z.land (code a) 0x03) 4 + Z.shiftr (Z.land (code b) 0xf0) 4 in
  let i2 := Z.shiftl (Z.land (code b) 0x0f) 2 + Z.shiftr (Z.land (code c) 0xc0) 6 in
  let i3 := Z.land (code c) 0x3f in
  Z.shiftl i0 2 + Z.shiftr (Z.land i1 0x30) 4 = code a
  /\ Z.shiftl (Z.land i1 0x0f) 4 + Z.shiftr (Z.land i2 0x3c) 2 = code b
  /\ Z.shiftl (Z.land i2 0x03) 6 + i3 = code c.
Proof.
  intros i0 i1 i2 i3. subst i0 i1 i2 i3.
  pose proof (code_range a). pose proof (code_range b).
  pose proof (code_range c).
  byte_divmod a. byte_divmod b. byte_divmod c.
  sextet_divmod (code a / 4).
  sextet_divmod (code a mod 4 * 16 + code b / 16).
  sextet_divmod (code b mod 16 * 4 + code c / 64).
  repeat split; Z.div_mod_to_equations; lia.
Qed.

(** The last group of an input of [3n + 1] bytes: the second index has no
    bits of a following byte. *)
Lemma regroup_one (a : ascii) :
  let i0 := Z.shiftr (Z.land (code a) 0xfc) 2 in
  let i1 := Z.shiftl (Z.land (code a) 0x03) 4 in
  Z.shiftl i0 2 + Z.shiftr (Z.land i1 0x30) 4 = code a.
Proof.
  intros i0 i1. subst i0 i1.
  pose proof (code_range a).
  byte_divmod a.
  sextet_divmod (code a / 4).
  sextet_divmod (code a mod 4 * 16).
  Z.div_mod_to_equations; lia.
Qed.

(** The last group of an input of [3n + 2] bytes. *)
Lemma regroup_two (a b : ascii) :
  let i0 := Z.shiftr (Z.land (code a) 0xfc) 2 in
  let i1 := Z.shiftl (Z.land (code a) 0x03) 4 + Z.shiftr (Z.land (code b) 0xf0) 4 in
  let i2 := Z.shiftl (Z.land (code b) 0x0f) 2 in
  Z.shiftl i0 2 + Z.shiftr (Z.land i1 0x30) 4 = code a
  /\ Z.shiftl (Z.land i1 0x0f) 4 + Z.shiftr (Z.land i2 0x3c) 2 = code b.
Proof.
  intros i0 i1 i2. subst i0 i1 i2.
  pose proof (code_range a). pose proof (code_range b).
  byte_divmod a. byte_divmod b.
  sextet_divmod (code a / 4).
  sextet_divmod (code a mod 4 * 16 + code b / 16).
  sextet_divmod (code b mod 16 * 4).
  repeat split; Z.div_mod_to_equations; lia.
Qed.

Ltac lookup_written :=
  repeat match goal with
         | |- context [pos_of_char (alphabet_char false ?i)] =>
             rewrite (proj1 (pos_of_char_alphabet i ltac:(alphabet_index)));
             cbn [bind]
         | |- context [is_padding (alphabet_char false ?i)] =>
             rewrite (proj2 (pos_of_char_alphabet i ltac:(alphabet_index)))
         end.

Lemma decode_group_three (a b c : ascii) :
  decode_group
    (alphabet_char false (Z.shiftr (Z.land (code a) 0xfc) 2))
    (alphabet_char false (Z.shiftl (Z.land (code a) 0x03) 4
                          + Z.shiftr (Z.land (code b) 0xf0) 4))
    (Some (alphabet_char false (Z.shiftl (Z.land (code b) 0x0f) 2
                                + Z.shiftr (Z.land (code c) 0xc0) 6)))
    (Some (alphabet_char false (Z.land (code c) 0x3f)))
  = Ret [a; b; c].
Proof.
  unfold decode_group. lookup_written.
  destruct (regroup a b c) as (-> & -> & ->).
  rewrite !chr_code. reflexivity.
Qed.

Lemma is_padding_trailing (url : bool) : is_padding (trailing_char url) = true.
Proof. destruct url; reflexivity. Qed.

Lemma decode_group_two (url : bool) (a b : ascii) :
  decode_group
    (alphabet_char false (Z.shiftr (Z.land (code a) 0xfc) 2))
    (alphabet_char false (Z.shiftl (Z.land (code a) 0x03) 4
                          + Z.shiftr (Z.land (code b) 0xf0) 4))
    (Some (alphabet_char false (Z.shiftl (Z.land (code b) 0x0f) 2)))
    (Some (trailing_char url))
  = Ret [a; b].
Proof.
  unfold decode_group. lookup_written. rewrite is_padding_trailing.
  destruct (regroup_two a b) as (-> & ->).
  rewrite !chr_code. reflexivity.
Qed.

Lemma decode_group_one (url : bool) (a : ascii) :
  decode_group
    (alphabet_char false (Z.shiftr (Z.land (code a) 0xfc) 2))
    (alphabet_char false (Z.shiftl (Z.land (code a) 0x03) 4))
    (Some (trailing_char url))
    (Some (trailing_char url))
  = Ret [a].
Proof.
  unfold decode_group. lookup_written. rewrite is_padding_trailing.
  rewrite (regroup_one a).
  rewrite !chr_code. reflexivity.
Qed.

Lemma decode_encode_chunks (s : list ascii) :
  decode_chunks (encode_chunks false s) = Ret s.
Proof.
  induction s as [|a|a b|a b c rest IH] using list_ind3.
  - reflexivity.
  - cbn [encode_chunks decode_chunks]. rewrite (decode_group_one false).
    reflexivity.
  - cbn [encode_chunks decode_chunks]. rewrite (decode_group_two false).
    reflexivity.
  - cbn [encode_chunks decode_chunks]. rewrite decode_group_three, IH.
    reflexivity.
Qed.

(** Round trip through the standard alphabet, for every input shorter than
    [2^32] bytes. *)
Theorem roundtrip_std_below_4GiB (s : list ascii) :
  len s < 2 ^ 32 -> decode_of_encode s false false = Ret s.
Proof.
  intros Hs. unfold decode_of_encode.
  rewrite base64_encode_chunks by exact Hs. cbn [bind].
  rewrite base64_decode_chunks. apply decode_encode_chunks.
Qed.

(** ** Shape of the encoder's output *)

Lemma encode_chunks_length url (s : list ascii) :
  len (encode_chunks url s) = encoded_length (len s).
Proof.
  unfold encoded_length.
  induction s as [|a|a b|a b c rest IH] using list_ind3; try reflexivity.
  cbn [encode_chunks]. rewrite !len_cons, IH.
  pose proof (len_nonneg rest).
  Z.div_mod_to_equations; lia.
Qed.

Lemma encode_chunks_chars url (s : list ascii) :
  Forall (fun c => encoded_char url c = true) (encode_chunks url s).
Proof.
  assert (HA : forall i, 0 <= i < 64 -> encoded_char url (alphabet_char url i) = true).
  { intros i Hi. unfold encoded_char.
    rewrite (proj1 (alphabet_char_in url i Hi)). reflexivity. }
  assert (HT : encoded_char url (trailing_char url) = true)
    by (destruct url; reflexivity).
  induction s as [|a|a b|a b c rest IH] using list_ind3;
    cbn [encode_chunks];
    repeat (apply Forall_cons; [first [exact HT | apply HA; alphabet_index]|]);
    auto.
Qed.

Lemma encoded_char_not_newline url (c : ascii) :
  encoded_char url c = true -> Ascii.eqb c newline = false.
Proof.
  destruct url; destruct c as [[] [] [] [] [] [] [] []];
    vm_compute; congruence.
Qed.

Lemma erase_remove_absent (c : ascii) (s : list ascii) :
  Forall (fun x => Ascii.eqb x c = false) s -> erase_remove c s = s.
Proof.
  unfold erase_remove.
  induction 1 as [|x l Hx _ IH]; simpl; [reflexivity|].
  rewrite Hx. simpl. rewrite IH. reflexivity.
Qed.

Lemma encode_chunks_no_newline url (s : list ascii) :
  erase_remove newline (encode_chunks url s) = encode_chunks url s.
Proof.
  apply erase_remove_absent.
  eapply Forall_impl; [|apply encode_chunks_chars].
  intros c. apply encoded_char_not_newline.
Qed.

(** ** Line breaks *)

Lemma len_insert_at (s : list ascii) (pos : Z) (c : ascii) :
  len (insert_at s pos c) = len s + 1.
Proof.
  unfold insert_at. rewrite len_app, len_cons. unfold len.
  rewrite <- (firstn_skipn (Z.to_nat pos) s) at 3.
  rewrite length_app. lia.
Qed.

Lemma erase_remove_insert_at (s : list ascii) (pos : Z) :
  erase_remove newline (insert_at s pos newline) = erase_remove newline s.
Proof.
  unfold erase_remove, insert_at.
  rewrite filter_app. simpl.
  rewrite <- filter_app, firstn_skipn. reflexivity.
Qed.

(** The loop of [insert_linebreaks] returns when the distance is positive,
    and what it returns is its input with newlines added. *)
Lemma insert_loop_returns (distance : Z) :
  1 <= distance ->
  forall fuel s pos,
    len s - pos <= Z.of_nat fuel ->
    exists out,
      insert_loop fuel s pos distance = Ret out
      /\ erase_remove newline out = erase_remove newline s.
Proof.
  intros Hd fuel. induction fuel as [|fuel IH]; intros s pos Hfuel.
  - exists s. split; [|reflexivity].
    simpl. destruct (Z.ltb_spec pos (len s)); [lia|reflexivity].
  - simpl. destruct (Z.ltb_spec pos (len s)) as [Hlt|Hge].
    + destruct (IH (insert_at s pos newline) (pos + (distance + 1)))
        as [out [Hout Herase]].
      * rewrite len_insert_at. lia.
      * exists out. split; [exact Hout|].
        rewrite Herase. apply erase_remove_insert_at.
    + exists s. split; reflexivity.
Qed.

Lemma insert_linebreaks_returns (s : list ascii) (distance : Z) :
  1 <= distance ->
  exists out,
    insert_linebreaks s distance = Ret out
    /\ erase_remove newline out = erase_remove newline s.
Proof.
  intros Hd. unfold insert_linebreaks.
  destruct (Z.eqb_spec (len s) 0) as [E|E].
  - exists []. split; [reflexivity|].
    destruct s; [reflexivity|]. rewrite len_cons in E.
    pose proof (len_nonneg s). lia.
  - apply insert_loop_returns; [exact Hd|]. unfold len. lia.
Qed.

(** MIME round trip, for every input shorter than [2^32] bytes. *)
Theorem roundtrip_mime_below_4GiB (s : list ascii) :
  len s < 2 ^ 32 -> decode_of_encode_mime s = Ret s.
Proof.
  intros Hs. unfold decode_of_encode_mime, base64_encode_mime.
  rewrite base64_encode_chunks by exact Hs. cbn [bind].
  destruct (insert_linebreaks_returns (encode_chunks false s) 76 ltac:(lia))
    as [out [-> Hout]].
  cbn [bind]. rewrite base64_decode_strip, Hout, encode_chunks_no_newline.
  apply decode_encode_chunks.
Qed.

(** Length law, for every input shorter than [2^32] bytes. *)
Theorem length_law_below_4GiB (s : list ascii) (url : bool) :
  len s < 2 ^ 32 ->
  exists out,
    base64_encode s url = Ret out /\ len out = encoded_length (len s).
Proof.
  intros Hs. exists (encode_chunks url s). split.
  - apply base64_encode_chunks. exact Hs.
  - apply encode_chunks_length.
Qed.

Lemma encode_empty (url : bool) : base64_encode [] url = Ret [].
Proof. reflexivity. Qed.

Lemma decode_empty (strip : bool) : base64_decode [] strip = Ret [].
Proof. reflexivity. Qed.

(** Padding, for every input shorter than [2^32] bytes: one byte left over
    gives two data characters and two padding characters, two bytes left
    over give three data characters and one padding character; the padding
    character is not a data character. *)
Lemma encode_chunks_padding url (s : list ascii) :
  (len s mod 3 = 1 ->
   exists body d1 d2,
     encode_chunks url s
     = body ++ [d1; d2; trailing_char url; trailing_char url]
     /\ forallb (in_alphabet url) (body ++ [d1; d2]) = true)
  /\ (len s mod 3 = 2 ->
      exists body d1 d2 d3,
        encode_chunks url s = body ++ [d1; d2; d3; trailing_char url]
        /\ forallb (in_alphabet url) (body ++ [d1; d2; d3]) = true).
Proof.
  assert (HA : forall i, 0 <= i < 64 -> in_alphabet url (alphabet_char url i) = true)
    by (intros i Hi; apply (alphabet_char_in url i Hi)).
  induction s as [|a|a b|a b c rest IH] using list_ind3.
  - split; intros H; discriminate H.
  - split; intros H; [|discriminate H].
    exists [], (alphabet_char url (Z.shiftr (Z.land (code a) 0xfc) 2)),
      (alphabet_char url (Z.shiftl (Z.land (code a) 0x03) 4)).
    split; [reflexivity|].
    cbn [app forallb]. rewrite !HA by alphabet_index. reflexivity.
  - split; intros H; [discriminate H|].
    exists [], (alphabet_char url (Z.shiftr (Z.land (code a) 0xfc) 2)),
      (alphabet_char url (Z.shiftl (Z.land (code a) 0x03) 4
                          + Z.shiftr (Z.land (code b) 0xf0) 4)),
      (alphabet_char url (Z.shiftl (Z.land (code b) 0x0f) 2)).
    split; [reflexivity|].
    cbn [app forallb]. rewrite !HA by alphabet_index. reflexivity.
  - assert (Hmod : len (a :: b :: c :: rest) mod 3 = len rest mod 3).
    { rewrite !len_cons. pose proof (len_nonneg rest).
      Z.div_mod_to_equations; lia. }
    rewrite Hmod. destruct IH as [IH1 IH2].
    split; intros H.
    + destruct (IH1 H) as (body & d1 & d2 & E & F).
      eexists (_ :: _ :: _ :: _ :: body), d1, d2.
      cbn [encode_chunks]. rewrite E. split; [reflexivity|].
      cbn [app forallb]. rewrite !HA by alphabet_index. exact F.
    + destruct (IH2 H) as (body & d1 & d2 & d3 & E & F).
      eexists (_ :: _ :: _ :: _ :: body), d1, d2, d3.
      cbn [encode_chunks]. rewrite E. split; [reflexivity|].
      cbn [app forallb]. rewrite !HA by alphabet_index. exact F.
Qed.

(** The final chunk, for every input shorter than [2^32] bytes: a length of
    the form [3n + 1] ends the output with two data characters and two
    padding characters, a length of the form [3n + 2] with three data
    characters and one padding character; everything before is data.  The
    padding character is '=' for the standard alphabet and '.' for the
    URL-safe one, and is no character of the alphabet. *)
Theorem padding_below_4GiB (s : list ascii) (url : bool) :
  len s < 2 ^ 32 ->
  (len s mod 3 = 1 ->
   exists body d1 d2,
     base64_encode s url
     = Ret (body ++ [d1; d2; trailing_char url; trailing_char url])
     /\ forallb (in_alphabet url) (body ++ [d1; d2]) = true)
  /\ (len s mod 3 = 2 ->
      exists body d1 d2 d3,
        base64_encode s url = Ret (body ++ [d1; d2; d3; trailing_char url])
        /\ forallb (in_alphabet url) (body ++ [d1; d2; d3]) = true)
  /\ in_alphabet url (trailing_char url) = false
  /\ trailing_char url = (if url then "." else "=")%char.
Proof.
  intros Hs. rewrite base64_encode_chunks by exact Hs.
  destruct (encode_chunks_padding url s) as [H1 H2].
  split; [|split; [|split]].
  - intros H. destruct (H1 H) as (body & d1 & d2 & -> & F). eauto.
  - intros H. destruct (H2 H) as (body & d1 & d2 & d3 & -> & F).
    exists body, d1, d2, d3. auto.
  - destruct url; reflexivity.
  - destruct url; reflexivity.
Qed.

(** ** The reverse table *)

(** A property of every entry of an array, decided entry by entry. *)
Lemma forall_entries {A : Type} (test : nat -> A -> bool) (l : list A) :
  forall n,
    forallb (fun p => test (fst p) (snd p)) (combine (seq n (length l)) l) = true ->
    forall i x, nth_error l i = Some x -> test (n + i)%nat x = true.
Proof.
  induction l as [|y l IH]; intros n H i x Hi.
  - destruct i; discriminate Hi.
  - simpl in H. apply andb_true_iff in H. destruct H as [Hy Hl].
    destruct i as [|i].
    + injection Hi as <-. rewrite Nat.add_0_r. exact Hy.
    + rewrite Nat.add_succ_r. apply (IH (S n) Hl i x Hi).
Qed.

Lemma nodup_check (l : list ascii) :
  (fix nodup (l : list ascii) : bool :=
     match l with
     | [] => true
     | x :: tl => negb (existsb (Ascii.eqb x) tl) && nodup tl
     end) l = true ->
  NoDup l.
Proof.
  induction l as [|x tl IH]; intros H; constructor.
  - apply andb_true_iff in H. destruct H as [H _].
    intros Hin. apply negb_true_iff in H.
    assert (existsb (Ascii.eqb x) tl = true).
    { apply existsb_exists. exists x. split; [exact Hin|].
      apply Ascii.eqb_refl. }
    congruence.
  - apply IH. apply andb_true_iff in H. apply H.
Qed.

(** C8.  The reverse table built from the standard alphabet has one entry
    per character code up to ['z'].  Each of the 64 characters of the
    alphabet is mapped to its index, exactly 64 entries hold something other
    than the placeholder, and every entry is either the placeholder or the
    index, below 64, of the character whose code is the position of the
    entry.  The table is a constant: no function of the codec writes to
    it. *)
Theorem decode_table_entries :
  len decode_table = max_encode_char
  /\ length encode_table = 64%nat
  /\ NoDup encode_table
  /\ (forall i c,
         nth_error encode_table i = Some c ->
         nth_error decode_table (Z.to_nat (code c)) = Some (Z.of_nat i))
  /\ (forall k v,
         nth_error decode_table k = Some v ->
         v = decode_placeholder
         \/ (0 <= v < 64
             /\ nth_error encode_table (Z.to_nat v) = Some (ascii_of_nat k)))
  /\ length (filter (fun v => negb (v =? decode_placeholder)) decode_table)
     = 64%nat.
Proof.
  split; [vm_compute; reflexivity|].
  split; [vm_compute; reflexivity|].
  split; [apply nodup_check; vm_compute; reflexivity|].
  split.
  { intros i c Hi.
    pose proof (forall_entries
                  (fun i c =>
                     match nth_error decode_table (Z.to_nat (code c)) with
                     | Some v => v =? Z.of_nat i
                     | None => false
                     end)
                  encode_table 0%nat ltac:(vm_compute; reflexivity) i c Hi) as H.
    cbv beta in H. rewrite Nat.add_0_l in H.
    destruct (nth_error decode_table (Z.to_nat (code c))) as [v|];
      [|discriminate H].
    apply Z.eqb_eq in H. congruence. }
  split.
  { intros k v Hk.
    pose proof (forall_entries
                  (fun k v =>
                     (v =? decode_placeholder)
                     || ((0 <=? v) && (v <? 64)
                         && match nth_error encode_table (Z.to_nat v) with
                            | Some c => Ascii.eqb c (ascii_of_nat k)
                            | None => false
                            end))
                  decode_table 0%nat ltac:(vm_compute; reflexivity) k v Hk) as H.
    cbv beta in H. rewrite Nat.add_0_l in H.
    apply orb_true_iff in H. destruct H as [H|H].
    - left. apply Z.eqb_eq. exact H.
    - right. apply andb_true_iff in H. destruct H as [H Hc].
      apply andb_true_iff in H. destruct H as [H0 H1].
      apply Z.leb_le in H0. apply Z.ltb_lt in H1.
      split; [lia|].
      destruct (nth_error encode_table (Z.to_nat v)) as [c|];
        [|discriminate Hc].
      apply Ascii.eqb_eq in Hc. congruence. }
  vm_compute. reflexivity.
Qed.

(** ** Known vectors *)

(** C6.  The named test vectors: "Man" encodes to "TWFu" and "TWFu" decodes
    to "Man"; "M" encodes to "TQ=="; "light work." encodes to
    "bGlnaHQgd29yay4=". *)
Theorem known_vectors :
  base64_encode (str "Man") false = Ret (str "TWFu")
  /\ base64_decode (str "TWFu") false = Ret (str "Man")
  /\ base64_encode (str "M") false = Ret (str "TQ==")
  /\ base64_encode (str "light work.") false = Ret (str "bGlnaHQgd29yay4=").
Proof.
  repeat split; vm_compute; reflexivity.
Qed.

(** ** Chunks of the decoder *)

Lemma len_four_more {A : Type} (a b c d : A) (l : list A) :
  len (a :: b :: c :: d :: l) mod 4 = len l mod 4.
Proof.
  rewrite !len_cons. pose proof (len_nonneg l).
  Z.div_mod_to_equations; lia.
Qed.

(** The decoder works chunk by chunk: after a whole number of chunks it
    continues as on a fresh string. *)
Lemma decode_chunks_app (pre suf : list ascii) :
  len pre mod 4 = 0 ->
  decode_chunks (pre ++ suf)
  = (a <- decode_chunks pre ;; r <- decode_chunks suf ;; Ret (a ++ r)).
Proof.
  induction pre as [|a|a b|a b c|a b c d rest IH] using list_ind4; intros H;
    try discriminate H.
  - cbn [app decode_chunks bind]. symmetry. apply bind_ret.
  - rewrite len_four_more in H.
    change ((a :: b :: c :: d :: rest) ++ suf)
      with (a :: b :: c :: d :: (rest ++ suf)).
    cbn [decode_chunks]. rewrite (IH H).
    destruct (decode_group a b (Some c) (Some d)) as [o|]; [|reflexivity].
    cbn [bind].
    destruct (decode_chunks rest) as [r|]; [|reflexivity].
    cbn [bind].
    destruct (decode_chunks suf) as [r'|]; [|reflexivity].
    cbn [bind]. rewrite app_assoc. reflexivity.
Qed.

Lemma pos_of_char_fails (c : ascii) (f : failure) :
  pos_of_char c = Fail f -> f = runtime_error.
Proof.
  intros H.
  destruct (pos_of_char_cases c) as [(_ & v & _ & E & _)|[_ E]];
    rewrite E in H; [discriminate H|injection H as <-; reflexivity].
Qed.

(** A round of the decoder fails only on a character it cannot look up. *)
Lemma decode_group_fails c0 c1 c2 c3 (f : failure) :
  decode_group c0 c1 c2 c3 = Fail f -> f = runtime_error.
Proof.
  unfold decode_group. intros H.
  destruct (pos_of_char c1) eqn:E1; cbn [bind] in H;
    [|apply (pos_of_char_fails c1); congruence].
  destruct (pos_of_char c0) eqn:E0; cbn [bind] in H;
    [|apply (pos_of_char_fails c0); congruence].
  destruct c2 as [c2|]; [|discriminate H].
  destruct (is_padding c2); [discriminate H|].
  destruct (pos_of_char c2) eqn:E2; cbn [bind] in H;
    [|apply (pos_of_char_fails c2); congruence].
  destruct c3 as [c3|]; [|discriminate H].
  destruct (is_padding c3); [discriminate H|].
  destruct (pos_of_char c3) eqn:E3; cbn [bind] in H;
    [discriminate H|apply (pos_of_char_fails c3); congruence].
Qed.

(** On a whole number of chunks the decoder returns or reports a character
    it cannot look up. *)
Lemma decode_chunks_whole (s : list ascii) :
  len s mod 4 = 0 ->
  (exists r, decode_chunks s = Ret r) \/ decode_chunks s = Fail runtime_error.
Proof.
  induction s as [|a|a b|a b c|a b c d rest IH] using list_ind4; intros H;
    try discriminate H.
  - left. exists []. reflexivity.
  - rewrite len_four_more in H. cbn [decode_chunks].
    destruct (decode_group a b (Some c) (Some d)) as [o|f] eqn:E.
    + cbn [bind]. destruct (IH H) as [[r ->]| ->].
      * left. eexists. reflexivity.
      * right. reflexivity.
    + right. rewrite (decode_group_fails _ _ _ _ _ E). reflexivity.
Qed.

(** The decoder always comes back: with bytes, with [runtime_error] or with
    [out_of_range]. *)
Lemma base64_decode_outcomes (s : list ascii) (strip : bool) :
  (exists r, base64_decode s strip = Ret r)
  \/ base64_decode s strip = Fail runtime_error
  \/ base64_decode s strip = Fail out_of_range.
Proof.
  rewrite base64_decode_stripped.
  induction (stripped s strip) as [|a|a b|a b c|a b c d rest IH] using list_ind4;
    cbn [decode_chunks]; eauto;
    match goal with
    | |- context [decode_group ?w ?x ?y ?z] =>
        destruct (decode_group w x y z) as [o|f] eqn:E;
        [|rewrite (decode_group_fails _ _ _ _ _ E); auto]
    end; eauto.
  cbn [bind]. destruct IH as [[r ->]|[->| ->]]; cbn [bind]; eauto.
Qed.

Lemma decode_group_padded_third c0 c1 p x :
  is_padding p = true ->
  decode_group c0 c1 (Some p) x = (o <- first_byte c0 c1 ;; Ret [o]).
Proof.
  intros Hp. unfold decode_group, first_byte. rewrite Hp.
  destruct (pos_of_char c1); [cbn [bind]|reflexivity].
  destruct (pos_of_char c0); reflexivity.
Qed.

(** C9.  In a chunk whose third character is a padding character ('=' or
    '.'), the decoder emits the first output byte only and does not look at
    the fourth character.  Let the string that is scanned (the input,
    without its newlines when the flag is set) be a whole number of chunks
    [pre], then a chunk that starts [c0 c1 p] with [p] a padding character,
    then [tail]: whatever the first character of [tail] (the fourth of the
    chunk) is, the result is the output of [pre], the one byte made from
    [c0 c1], and the output of the chunks after that fourth character.  At
    "TQ=!" this gives "M". *)
Theorem padded_third_hides_fourth (s : list ascii) (strip : bool)
  (pre tail : list ascii) (c0 c1 p : ascii) :
  stripped s strip = pre ++ c0 :: c1 :: p :: tail ->
  len pre mod 4 = 0 ->
  is_padding p = true ->
  base64_decode s strip
  = (before <- base64_decode pre false ;;
     o <- first_byte c0 c1 ;;
     after <- base64_decode (tl tail) false ;;
     Ret (before ++ [o] ++ after)).
Proof.
  intros Hs Hpre Hp.
  rewrite (base64_decode_stripped s strip), Hs.
  rewrite !base64_decode_chunks, (decode_chunks_app _ _ Hpre).
  destruct tail as [|x rest]; cbn [decode_chunks tl];
    rewrite (decode_group_padded_third c0 c1 p _ Hp);
    destruct (decode_chunks pre) as [a|]; cbn [bind]; try reflexivity;
    destruct (first_byte c0 c1) as [o|]; cbn [bind]; try reflexivity.
  destruct (decode_chunks rest) as [r|]; reflexivity.
Qed.

Lemma padded_third_hides_fourth_witness :
  stripped (str "TQ=!") false = [] ++ ["T"; "Q"; "="]%char ++ str "!"
  /\ len (@nil ascii) mod 4 = 0
  /\ is_padding "=" = true
  /\ base64_decode (str "TQ=!") false = Ret (str "M").
Proof.
  split; [reflexivity|]. split; [reflexivity|]. split; [reflexivity|].
  exact (padded_third_hides_fourth (str "TQ=!") false [] (str "!") "T" "Q" "="
           eq_refl eq_refl eq_refl).
Defined.

(** ** A final chunk of one character *)

(** C10, as the code has it.  When the string that is scanned (the input,
    without its newlines when the flag is set) has a length of [4n + 1], the
    decoder returns no bytes.  If the [n] whole chunks before the last
    character decode, the failure is the [out_of_range] of the bounds-checked
    access to the missing second character of the final chunk; otherwise it
    is the [runtime_error] of the first chunk with a character that cannot be
    looked up, and the final chunk is never reached. *)
Theorem one_left_over (s : list ascii) (strip : bool) :
  len (stripped s strip) mod 4 = 1 ->
  (exists r,
      base64_decode (removelast (stripped s strip)) false = Ret r
      /\ base64_decode s strip = Fail out_of_range)
  \/ (base64_decode (removelast (stripped s strip)) false = Fail runtime_error
      /\ base64_decode s strip = Fail runtime_error).
Proof.
  intros H.
  rewrite (base64_decode_stripped s strip), base64_decode_chunks.
  set (t := stripped s strip) in *.
  assert (Hne : t <> []) by (intros E; rewrite E in H; discriminate H).
  pose proof (app_removelast_last zero Hne) as Ht.
  assert (Hlen : len (removelast t) mod 4 = 0).
  { assert (len t = len (removelast t) + 1)
      by (rewrite Ht at 1; rewrite len_app; reflexivity).
    pose proof (len_nonneg (removelast t)).
    Z.div_mod_to_equations; lia. }
  assert (Hlast : decode_chunks t
                  = (a <- decode_chunks (removelast t) ;;
                     r <- Fail out_of_range ;; Ret (a ++ r))).
  { rewrite Ht at 1.
    exact (decode_chunks_app (removelast t) [last t zero] Hlen). }
  rewrite Hlast.
  destruct (decode_chunks_whole _ Hlen) as [[r E]|E]; rewrite E; cbn [bind].
  - left. exists r. split; reflexivity.
  - right. split; reflexivity.
Qed.

Lemma one_left_over_witness :
  len (stripped (str "TWFuT") false) mod 4 = 1
  /\ ((exists r,
          base64_decode (removelast (stripped (str "TWFuT") false)) false = Ret r
          /\ base64_decode (str "TWFuT") false = Fail out_of_range)
      \/ (base64_decode (removelast (stripped (str "TWFuT") false)) false
          = Fail runtime_error
          /\ base64_decode (str "TWFuT") false = Fail runtime_error)).
Proof.
  split; [reflexivity|].
  apply (one_left_over (str "TWFuT") false). reflexivity.
Defined.

(** C10 as stated fails: "!AAAA" has five characters, and the decoder fails
    on '!' in the first chunk with [runtime_error], before it comes to the
    final chunk. *)
Lemma one_left_over_counterexample :
  str "!AAAA" <> []
  /\ len (str "!AAAA") mod 4 = 1
  /\ base64_decode (str "!AAAA") false = Fail runtime_error
  /\ base64_decode (str "!AAAA") false <> Fail out_of_range.
Proof.
  split; [discriminate|]. split; [reflexivity|].
  split; [vm_compute; reflexivity|]. vm_compute. discriminate.
Qed.

(** ** Characters outside the alphabet *)

Lemma pos_of_char_invalid (c : ascii) :
  in_alphabet false c = false -> pos_of_char c = Fail runtime_error.
Proof.
  intros H.
  destruct (pos_of_char_cases c) as [(E & _)|[_ E]]; [congruence|exact E].
Qed.

(** A round fails when one of the characters it looks up is outside the
    alphabet. *)
Lemma decode_group_invalid c0 c1 c2 c3 :
  in_alphabet false c0 = false
  \/ in_alphabet false c1 = false
  \/ (exists x, c2 = Some x /\ is_padding x = false
                /\ in_alphabet false x = false)
  \/ (exists x y, c2 = Some x /\ is_padding x = false
                  /\ c3 = Some y /\ is_padding y = false
                  /\ in_alphabet false y = false) ->
  decode_group c0 c1 c2 c3 = Fail runtime_error.
Proof.
  intros H.
  destruct (decode_group c0 c1 c2 c3) as [o|f] eqn:E.
  - exfalso. unfold decode_group in E.
    destruct (pos_of_char c1) as [p1|] eqn:E1; cbn [bind] in E;
      [|discriminate E].
    destruct (pos_of_char c0) as [p0|] eqn:E0; cbn [bind] in E;
      [|discriminate E].
    destruct H as [H|[H|[(x & -> & Hp & H)|(x & y & -> & Hp & -> & Hq & H)]]];
      try (apply pos_of_char_invalid in H; congruence).
    + rewrite Hp in E. apply pos_of_char_invalid in H.
      rewrite H in E. discriminate E.
    + rewrite Hp in E.
      destruct (pos_of_char x) as [p2|]; cbn [bind] in E; [|discriminate E].
      rewrite Hq in E. apply pos_of_char_invalid in H.
      rewrite H in E. discriminate E.
  - rewrite (decode_group_fails _ _ _ _ _ E). reflexivity.
Qed.

Lemma looked_up_four_more (a b c d : ascii) (rest : list ascii) (i : nat) :
  looked_up (a :: b :: c :: d :: rest) (4 + i) = looked_up rest i.
Proof.
  unfold looked_up.
  change (nth_error (a :: b :: c :: d :: rest) (4 + i)) with (nth_error rest i).
  replace ((4 + i) mod 4)%nat with (i mod 4)%nat
    by (replace (4 + i)%nat with (i + 1 * 4)%nat by lia;
        symmetry; apply Nat.Div0.mod_add).
  destruct (nth_error rest i) as [x|]; [|reflexivity].
  destruct (i mod 4)%nat as [|[|[|r]]] eqn:Er; try reflexivity.
  destruct i as [|i]; [discriminate Er|].
  replace (4 + S i - 1)%nat with (4 + i)%nat by lia.
  replace (S i - 1)%nat with i by lia.
  reflexivity.
Qed.

Lemma decode_chunks_invalid (s : list ascii) :
  forall i c,
    nth_error s i = Some c ->
    looked_up s i = true ->
    in_alphabet false c = false ->
    decode_chunks s = Fail runtime_error
    \/ (len s mod 4 = 1 /\ decode_chunks s = Fail out_of_range).
Proof.
  induction s as [|a|a b|a b c'|a b c' d rest IH] using list_ind4;
    intros i c Hi Hl Hc.
  - destruct i; discriminate Hi.
  - right. split; reflexivity.
  - left. cbn [decode_chunks]. apply decode_group_invalid.
    destruct i as [|[|i]]; [| |destruct i; discriminate Hi];
      injection Hi as <-; auto.
  - left. cbn [decode_chunks]. apply decode_group_invalid.
    destruct i as [|[|[|i]]]; [| | |destruct i; discriminate Hi];
      injection Hi as <-; auto.
    right; right; left. exists c'.
    unfold looked_up in Hl. cbn in Hl. apply negb_true_iff in Hl. auto.
  - cbn [decode_chunks].
    destruct i as [|[|[|[|i]]]].
    + injection Hi as <-.
      rewrite decode_group_invalid by auto. left. reflexivity.
    + injection Hi as <-.
      rewrite decode_group_invalid by auto. left. reflexivity.
    + injection Hi as <-.
      unfold looked_up in Hl. cbn in Hl. apply negb_true_iff in Hl.
      rewrite decode_group_invalid; [left; reflexivity|].
      right; right; left. exists c'. auto.
    + injection Hi as <-.
      unfold looked_up in Hl. cbn in Hl. apply andb_true_iff in Hl.
      destruct Hl as [Hd Hc']. apply negb_true_iff in Hd, Hc'.
      rewrite decode_group_invalid; [left; reflexivity|].
      right; right; right. exists c', d. auto.
    + change (S (S (S (S i)))) with (4 + i)%nat in Hl.
      rewrite looked_up_four_more in Hl.
      destruct (decode_group a b (Some c') (Some d)) as [o|f] eqn:E.
      * cbn [bind].
        destruct (IH i c Hi Hl Hc) as [->|[Hlen ->]].
        -- left. reflexivity.
        -- right. rewrite len_four_more. split; [exact Hlen|reflexivity].
      * left. rewrite (decode_group_fails _ _ _ _ _ E). reflexivity.
Qed.

(** C5, as the code has it.  Take the string that is scanned (the input,
    without its newlines when the flag is set).  When a character of it that
    the decoder looks up (the first or second character of a chunk, a third
    character that is no padding character, or a fourth character that is no
    padding character and follows a third that is none either) is outside
    the standard alphabet, the decoder returns no bytes, neither whole nor
    truncated: it fails with [runtime_error], or, when the length of the
    scanned string is [4n + 1] and no chunk before the last character fails,
    with the [out_of_range] of the final chunk.  At "A!B=" the failure is
    [runtime_error]. *)
Theorem looked_up_outside_alphabet_fails (s : list ascii) (strip : bool)
  (i : nat) (c : ascii) :
  nth_error (stripped s strip) i = Some c ->
  looked_up (stripped s strip) i = true ->
  in_alphabet false c = false ->
  base64_decode s strip = Fail runtime_error
  \/ (len (stripped s strip) mod 4 = 1
      /\ base64_decode s strip = Fail out_of_range).
Proof.
  rewrite base64_decode_stripped. apply decode_chunks_invalid.
Qed.

Lemma looked_up_outside_alphabet_fails_witness :
  nth_error (stripped (str "A!B=") false) 1 = Some "!"%char
  /\ looked_up (stripped (str "A!B=") false) 1 = true
  /\ in_alphabet false "!" = false
  /\ base64_decode (str "A!B=") false = Fail runtime_error.
Proof.
  split; [reflexivity|]. split; [reflexivity|]. split; [reflexivity|].
  destruct (looked_up_outside_alphabet_fails (str "A!B=") false 1 "!"
              eq_refl eq_refl eq_refl) as [H|[H _]].
  - exact H.
  - discriminate H.
Defined.

(** C5 as stated fails: "TQ=!" contains '!', which is neither in the
    alphabet nor a padding character, and decodes to "M". *)
Lemma outside_alphabet_counterexample :
  In "!"%char (str "TQ=!")
  /\ in_alphabet false "!" = false
  /\ is_padding "!" = false
  /\ base64_decode (str "TQ=!") false = Ret (str "M").
Proof.
  split; [simpl; tauto|]. repeat split; vm_compute; reflexivity.
Qed.

(** ** Decoding what the encoder wrote (URL-safe alphabet) *)

(** The URL-safe alphabet is the standard one up to index 61; its last two
    characters are unknown to the reverse table. *)
Lemma alphabet_char_url (i : Z) :
  0 <= i < 64 ->
  (url_only (alphabet_char true i) = false
   /\ alphabet_char true i = alphabet_char false i)
  \/ (url_only (alphabet_char true i) = true
      /\ in_alphabet false (alphabet_char true i) = false).
Proof.
  intros H. destruct (below_64_cases i H) as [n [Hn ->]]. clear H.
  do 64 (destruct n as [|n];
         [first [left; split; reflexivity | right; split; reflexivity]|]).
  lia.
Qed.

Ltac url_index i :=
  let U := fresh "U" in
  let E := fresh "E" in
  let P := fresh "P" in
  pose proof (proj2 (alphabet_char_in true i ltac:(alphabet_index))) as P;
  destruct (alphabet_char_url i ltac:(alphabet_index)) as [[U E]|[U E]];
  rewrite U; [rewrite E in *|].

Ltac refuse_group :=
  cbn [orb]; rewrite ?orb_true_r; apply decode_group_invalid;
  first [ left; assumption
        | right; left; assumption
        | right; right; left; eexists; repeat split; eassumption
        | right; right; right; eexists _, _; repeat split; eassumption ].

Lemma decode_group_three_url (a b c : ascii) :
  let x0 := alphabet_char true (Z.shiftr (Z.land (code a) 0xfc) 2) in
  let x1 := alphabet_char true (Z.shiftl (Z.land (code a) 0x03) 4
                                + Z.shiftr (Z.land (code b) 0xf0) 4) in
  let x2 := alphabet_char true (Z.shiftl (Z.land (code b) 0x0f) 2
                                + Z.shiftr (Z.land (code c) 0xc0) 6) in
  let x3 := alphabet_char true (Z.land (code c) 0x3f) in
  decode_group x0 x1 (Some x2) (Some x3)
  = if url_only x0 || (url_only x1 || (url_only x2 || url_only x3))
    then Fail runtime_error else Ret [a; b; c].
Proof.
  cbv zeta.
  url_index (Z.shiftr (Z.land (code a) 0xfc) 2); [|refuse_group].
  url_index (Z.shiftl (Z.land (code a) 0x03) 4
             + Z.shiftr (Z.land (code b) 0xf0) 4); [|refuse_group].
  url_index (Z.shiftl (Z.land (code b) 0x0f) 2
             + Z.shiftr (Z.land (code c) 0xc0) 6); [|refuse_group].
  url_index (Z.land (code c) 0x3f); [|refuse_group].
  apply decode_group_three.
Qed.

Lemma decode_group_two_url (a b : ascii) :
  let x0 := alphabet_char true (Z.shiftr (Z.land (code a) 0xfc) 2) in
  let x1 := alphabet_char true (Z.shiftl (Z.land (code a) 0x03) 4
                                + Z.shiftr (Z.land (code b) 0xf0) 4) in
  let x2 := alphabet_char true (Z.shiftl (Z.land (code b) 0x0f) 2) in
  decode_group x0 x1 (Some x2) (Some (trailing_char true))
  = if url_only x0 || (url_only x1 || url_only x2)
    then Fail runtime_error else Ret [a; b].
Proof.
  cbv zeta.
  url_index (Z.shiftr (Z.land (code a) 0xfc) 2); [|refuse_group].
  url_index (Z.shiftl (Z.land (code a) 0x03) 4
             + Z.shiftr (Z.land (code b) 0xf0) 4); [|refuse_group].
  url_index (Z.shiftl (Z.land (code b) 0x0f) 2); [|refuse_group].
  apply decode_group_two.
Qed.

Lemma decode_group_one_url (a : ascii) :
  let x0 := alphabet_char true (Z.shiftr (Z.land (code a) 0xfc) 2) in
  let x1 := alphabet_char true (Z.shiftl (Z.land (code a) 0x03) 4) in
  decode_group x0 x1 (Some (trailing_char true)) (Some (trailing_char true))
  = if url_only x0 || url_only x1 then Fail runtime_error else Ret [a].
Proof.
  cbv zeta.
  url_index (Z.shiftr (Z.land (code a) 0xfc) 2); [|refuse_group].
  url_index (Z.shiftl (Z.land (code a) 0x03) 4); [|refuse_group].
  apply decode_group_one.
Qed.

Lemma decode_encode_chunks_url (s : list ascii) :
  decode_chunks (encode_chunks true s)
  = if existsb url_only (encode_chunks true s)
    then Fail runtime_error else Ret s.
Proof.
  induction s as [|a|a b|a b c rest IH] using list_ind3.
  - reflexivity.
  - cbn [encode_chunks decode_chunks existsb].
    rewrite decode_group_one_url. cbv zeta.
    rewrite !orb_false_r.
    destruct (url_only _ || url_only _); reflexivity.
  - cbn [encode_chunks decode_chunks existsb].
    rewrite decode_group_two_url. cbv zeta.
    rewrite !orb_false_r.
    destruct (url_only _ || (url_only _ || url_only _)); reflexivity.
  - cbn [encode_chunks decode_chunks existsb].
    rewrite decode_group_three_url, IH. cbv zeta.
    rewrite !orb_assoc.
    destruct (url_only _ || url_only _ || url_only _ || url_only _);
      [reflexivity|].
    cbn [orb bind].
    destruct (existsb url_only (encode_chunks true rest)); reflexivity.
Qed.

(** Round trip through the URL-safe alphabet, for every input shorter than
    [2^32] bytes: the decoder gives the input back when the encoding has
    neither '-' nor '_', and fails with [runtime_error] when it has one. *)
Theorem roundtrip_url_below_4GiB (s : list ascii) :
  len s < 2 ^ 32 ->
  exists e,
    base64_encode s true = Ret e
    /\ decode_of_encode s true false
       = if existsb url_only e then Fail runtime_error else Ret s.
Proof.
  intros Hs. exists (encode_chunks true s). unfold decode_of_encode.
  rewrite base64_encode_chunks by exact Hs. split; [reflexivity|].
  cbn [bind]. rewrite base64_decode_chunks. apply decode_encode_chunks_url.
Qed.

(** The theorems for inputs below [2^32] bytes, at small inputs. *)
Example roundtrip_std_light_work :
  decode_of_encode (str "light work.") false false = Ret (str "light work.").
Proof. apply roundtrip_std_below_4GiB. reflexivity. Defined.

Example roundtrip_mime_light_work :
  decode_of_encode_mime (str "light work.") = Ret (str "light work.").
Proof. apply roundtrip_mime_below_4GiB. reflexivity. Defined.

Example length_law_light_work :
  exists out,
    base64_encode (str "light work.") true = Ret out /\ len out = 16.
Proof. apply (length_law_below_4GiB (str "light work.") true). reflexivity. Defined.

Example padding_one_byte :
  exists body d1 d2,
    base64_encode (str "M") true = Ret (body ++ [d1; d2; "."; "."]%char)
    /\ forallb (in_alphabet true) (body ++ [d1; d2]) = true.
Proof.
  apply (proj1 (padding_below_4GiB (str "M") true eq_refl)). reflexivity.
Defined.

(** ** Inputs of 4 GiB and the URL-safe alphabet *)

(** C4 at a string of [2^32] bytes: the encoder returns nothing, for either
    alphabet.  Its cursor is an [unsigned int], compared with a [size_t]
    length; it wraps from [2^32 - 1] to 2 and stays below the length for
    ever.  (Below [2^32] bytes the length law holds:
    [length_law_below_4GiB]; the empty string encodes to the empty string:
    [encode_empty].) *)
Theorem length_law_4GiB :
  len four_GiB = 2 ^ 32
  /\ forall url, base64_encode four_GiB url = Fail nontermination.
Proof.
  split; [exact len_four_GiB|].
  intros url. apply base64_encode_hangs. rewrite len_four_GiB. lia.
Qed.

(** C1 at a string of [2^32] bytes: encoding it never ends, so there is
    nothing to decode.  (Below [2^32] bytes the round trip holds:
    [roundtrip_std_below_4GiB].) *)
Theorem roundtrip_std_4GiB :
  decode_of_encode four_GiB false false = Fail nontermination.
Proof.
  unfold decode_of_encode.
  rewrite base64_encode_hangs by (rewrite len_four_GiB; lia).
  reflexivity.
Qed.

(** C3 at a string of [2^32] bytes: the MIME encoder starts with
    [base64_encode], which never ends.  (Below [2^32] bytes the round trip
    holds: [roundtrip_mime_below_4GiB].) *)
Theorem roundtrip_mime_4GiB :
  decode_of_encode_mime four_GiB = Fail nontermination.
Proof.
  unfold decode_of_encode_mime, base64_encode_mime.
  rewrite base64_encode_hangs by (rewrite len_four_GiB; lia).
  reflexivity.
Qed.

(** C7 at a string of [2^32] bytes, a length of the form [3n + 1]: the
    encoder returns no string at all, so no final chunk with two padding
    characters.  (Below [2^32] bytes the padding is as claimed:
    [padding_below_4GiB].) *)
Theorem padding_4GiB :
  len four_GiB mod 3 = 1
  /\ forall url out, base64_encode four_GiB url <> Ret out.
Proof.
  split; [rewrite len_four_GiB; reflexivity|].
  intros url out.
  rewrite base64_encode_hangs by (rewrite len_four_GiB; lia).
  discriminate.
Qed.

(** C2 at the two bytes 0xFB 0xFF: their URL-safe encoding is "-_8.", and
    the decoder fails on it, since the reverse table is built from the
    standard alphabet and has no entry for '-' and '_'.  (Below [2^32] bytes
    the round trip holds exactly when the encoding has neither of the two:
    [roundtrip_url_below_4GiB].) *)
Theorem roundtrip_url_fails :
  base64_encode [chr 0xfb; chr 0xff] true = Ret (str "-_8.")
  /\ pos_of_char "-" = Fail runtime_error
  /\ pos_of_char "_" = Fail runtime_error
  /\ decode_of_encode [chr 0xfb; chr 0xff] true false = Fail runtime_error.
Proof.
  repeat split; vm_compute; reflexivity.
Qed.

(** * Further properties of the codec *)

(** ** base64_encode *)

(** [base64_encode] returns a string exactly on the inputs shorter than
    [2^32] bytes; from [2^32] bytes on, its 32-bit cursor keeps the loop
    running for ever. *)
Theorem base64_encode_returns_iff (s : list ascii) (url : bool) :
  (exists out, base64_encode s url = Ret out) <-> len s < 2 ^ 32.
Proof.
  split.
  - intros [out H].
    destruct (Z.lt_ge_cases (len s) (2 ^ 32)) as [Hs|Hs]; [exact Hs|].
    rewrite base64_encode_hangs in H by exact Hs. discriminate H.
  - intros Hs. exists (encode_chunks url s). apply base64_encode_chunks, Hs.
Qed.

Lemma forallb_Forall {A : Type} (f : A -> bool) (l : list A) :
  Forall (fun x => f x = true) l -> forallb f l = true.
Proof. intros H. apply forallb_forall. apply Forall_forall. exact H. Qed.

Lemma encode_chunks_whole url (s : list ascii) :
  len s mod 3 = 0 -> forallb (in_alphabet url) (encode_chunks url s) = true.
Proof.
  assert (HA : forall i, 0 <= i < 64 -> in_alphabet url (alphabet_char url i) = true)
    by (intros i Hi; apply (alphabet_char_in url i Hi)).
  induction s as [|a|a b|a b c rest IH] using list_ind3; intros H;
    try discriminate H; [reflexivity|].
  assert (Hmod : len (a :: b :: c :: rest) mod 3 = len rest mod 3).
  { rewrite !len_cons. pose proof (len_nonneg rest).
    Z.div_mod_to_equations; lia. }
  rewrite Hmod in H.
  cbn [encode_chunks forallb]. rewrite !HA by alphabet_index. exact (IH H).
Qed.

(** Every character that [base64_encode] writes is a character of the chosen
    alphabet or its padding character ('=' for the standard alphabet, '.'
    for the URL-safe one); when the input length is a multiple of 3 there is
    no padding character at all. *)
Theorem base64_encode_characters (s : list ascii) (url : bool) :
  len s < 2 ^ 32 ->
  exists out,
    base64_encode s url = Ret out
    /\ forallb (encoded_char url) out = true
    /\ (len s mod 3 = 0 -> forallb (in_alphabet url) out = true).
Proof.
  intros Hs. exists (encode_chunks url s).
  split; [apply base64_encode_chunks, Hs|]. split.
  - apply forallb_Forall, encode_chunks_chars.
  - apply encode_chunks_whole.
Qed.

Lemma base64_encode_characters_witness :
  len (str "Man") < 2 ^ 32
  /\ exists out,
       base64_encode (str "Man") true = Ret out
       /\ forallb (encoded_char true) out = true
       /\ (len (str "Man") mod 3 = 0 -> forallb (in_alphabet true) out = true).
Proof.
  split; [reflexivity|].
  apply (base64_encode_characters (str "Man") true). reflexivity.
Defined.

Lemma alphabet_char_to_url (i : Z) :
  0 <= i < 64 -> alphabet_char true i = to_url (alphabet_char false i).
Proof.
  intros H. destruct (below_64_cases i H) as [n [Hn ->]]. clear H.
  do 64 (destruct n as [|n]; [reflexivity|]). lia.
Qed.

Lemma encode_chunks_to_url (s : list ascii) :
  encode_chunks true s = map to_url (encode_chunks false s).
Proof.
  induction s as [|a|a b|a b c rest IH] using list_ind3;
    cbn [encode_chunks map];
    rewrite ?alphabet_char_to_url by alphabet_index;
    rewrite ?IH; reflexivity.
Qed.

(** The URL-safe encoding of an input is its standard encoding with every
    '+' turned into '-', every '/' into '_' and every '=' into '.'. *)
Theorem base64_encode_url_of_standard (s : list ascii) :
  len s < 2 ^ 32 ->
  exists e,
    base64_encode s false = Ret e
    /\ base64_encode s true = Ret (map to_url e).
Proof.
  intros Hs. exists (encode_chunks false s).
  rewrite !base64_encode_chunks by exact Hs.
  split; [reflexivity|]. rewrite encode_chunks_to_url. reflexivity.
Qed.

Lemma base64_encode_url_of_standard_witness :
  len [chr 0xfb; chr 0xff] < 2 ^ 32
  /\ base64_encode [chr 0xfb; chr 0xff] false = Ret (str "+/8=")
  /\ base64_encode [chr 0xfb; chr 0xff] true = Ret (map to_url (str "+/8=")).
Proof.
  split; [reflexivity|].
  destruct (base64_encode_url_of_standard [chr 0xfb; chr 0xff] eq_refl)
    as [e [H1 H2]].
  assert (E : e = str "+/8=")
    by (vm_compute in H1; injection H1 as <-; reflexivity).
  rewrite E in H2. split; [reflexivity|exact H2].
Defined.

Lemma encode_chunks_app url (pre suf : list ascii) :
  len pre mod 3 = 0 ->
  encode_chunks url (pre ++ suf) = encode_chunks url pre ++ encode_chunks url suf.
Proof.
  induction pre as [|a|a b|a b c rest IH] using list_ind3; intros H;
    try discriminate H; [reflexivity|].
  assert (Hmod : len (a :: b :: c :: rest) mod 3 = len rest mod 3).
  { rewrite !len_cons. pose proof (len_nonneg rest).
    Z.div_mod_to_equations; lia. }
  rewrite Hmod in H.
  change ((a :: b :: c :: rest) ++ suf) with (a :: b :: c :: (rest ++ suf)).
  cbn [encode_chunks]. rewrite (IH H). reflexivity.
Qed.

(** Encoding works on groups of three bytes: after a whole number of groups
    the encoding of a concatenation is the concatenation of the
    encodings. *)
Theorem base64_encode_app (pre suf : list ascii) (url : bool) :
  len (pre ++ suf) < 2 ^ 32 ->
  len pre mod 3 = 0 ->
  exists e1 e2,
    base64_encode pre url = Ret e1
    /\ base64_encode suf url = Ret e2
    /\ base64_encode (pre ++ suf) url = Ret (e1 ++ e2).
Proof.
  intros Hs Hpre.
  pose proof (len_nonneg pre). pose proof (len_nonneg suf).
  rewrite len_app in Hs.
  exists (encode_chunks url pre), (encode_chunks url suf).
  rewrite !base64_encode_chunks by (rewrite ?len_app; lia).
  repeat split. rewrite encode_chunks_app by exact Hpre. reflexivity.
Qed.

Lemma base64_encode_app_witness :
  len (str "Man" ++ str "M") < 2 ^ 32
  /\ len (str "Man") mod 3 = 0
  /\ exists e1 e2,
       base64_encode (str "Man") false = Ret e1
       /\ base64_encode (str "M") false = Ret e2
       /\ base64_encode (str "Man" ++ str "M") false = Ret (e1 ++ e2).
Proof.
  split; [reflexivity|]. split; [reflexivity|].
  apply (base64_encode_app (str "Man") (str "M") false); reflexivity.
Defined.

(** ** insert_linebreaks *)

Lemma insert_at_past (pre suf : list ascii) (d : nat) (c : ascii) :
  (d <= length suf)%nat ->
  insert_at (pre ++ suf) (len pre + Z.of_nat d) c
  = (pre ++ firstn d suf ++ [c]) ++ skipn d suf.
Proof.
  intros Hd. unfold insert_at, len.
  replace (Z.to_nat (Z.of_nat (length pre) + Z.of_nat d))
    with (length pre + d)%nat by lia.
  rewrite firstn_app_2, skipn_app.
  replace (length pre + d - length pre)%nat with d by lia.
  rewrite (skipn_all2 pre) by lia.
  rewrite <- !app_assoc. reflexivity.
Qed.

(** The loop, started one line after the part [pre] that is already laid
    out, lays out the rest as [lines] does. *)
Lemma insert_loop_lines (d : nat) :
  (1 <= d)%nat ->
  forall fuel suf pre,
    (length suf <= fuel + d)%nat ->
    insert_loop fuel (pre ++ suf) (len pre + Z.of_nat d) (Z.of_nat d)
    = Ret (pre ++ lines fuel d suf).
Proof.
  intros Hd fuel. induction fuel as [|fuel IH]; intros suf pre Hfuel.
  - simpl. rewrite len_app.
    destruct (Z.ltb_spec (len pre + Z.of_nat d) (len pre + len suf));
      [unfold len in *; lia|reflexivity].
  - cbn [insert_loop lines]. rewrite len_app.
    destruct (Z.ltb_spec (len pre + Z.of_nat d) (len pre + len suf)) as [Hlt|Hge].
    + assert (Hlong : (d < length suf)%nat) by (unfold len in Hlt; lia).
      destruct (Nat.leb_spec (length suf) d); [lia|].
      rewrite insert_at_past by lia.
      replace (len pre + Z.of_nat d + (Z.of_nat d + 1))
        with (len (pre ++ firstn d suf ++ [newline]) + Z.of_nat d).
      * rewrite IH by (rewrite length_skipn; lia).
        rewrite <- !app_assoc. reflexivity.
      * rewrite !len_app. unfold len. rewrite firstn_length_le by lia.
        simpl length. lia.
    + destruct (Nat.leb_spec (length suf) d); [reflexivity|].
      unfold len in Hge. lia.
Qed.

Lemma insert_linebreaks_lines (s : list ascii) (d : nat) :
  (1 <= d)%nat ->
  insert_linebreaks s (Z.of_nat d) = Ret (lines (length s) d s).
Proof.
  intros Hd. unfold insert_linebreaks.
  destruct (Z.eqb_spec (len s) 0) as [E|E].
  - destruct s; [reflexivity|]. rewrite len_cons in E.
    pose proof (len_nonneg s). lia.
  - exact (insert_loop_lines d Hd (length s) s [] ltac:(lia)).
Qed.

Lemma lines_length (d : nat) :
  (1 <= d)%nat ->
  forall fuel s,
    (length s <= fuel + d)%nat ->
    length (lines fuel d s) = (length s + (length s - 1) / d)%nat.
Proof.
  intros Hd fuel. induction fuel as [|fuel IH]; intros s Hfuel.
  - simpl. rewrite Nat.div_small by lia. lia.
  - cbn [lines]. destruct (Nat.leb_spec (length s) d) as [Hle|Hgt].
    + rewrite Nat.div_small by lia. lia.
    + rewrite length_app, firstn_length_le by lia.
      simpl length. rewrite IH by (rewrite length_skipn; lia).
      rewrite length_skipn.
      replace (length s - 1)%nat with (length s - d - 1 + 1 * d)%nat by lia.
      rewrite Nat.div_add by lia. lia.
Qed.

Lemma lines_nth (d : nat) :
  (1 <= d)%nat ->
  forall fuel s j,
    (length s <= fuel + d)%nat ->
    (j < length (lines fuel d s))%nat ->
    nth_error (lines fuel d s) j
    = if (S j mod S d =? 0)%nat then Some newline
      else nth_error s (j - S j / S d).
Proof.
  intros Hd fuel. induction fuel as [|fuel IH]; intros s j Hfuel Hj.
  - cbn [lines] in Hj |- *.
    rewrite Nat.mod_small, Nat.div_small by lia.
    rewrite Nat.sub_0_r. reflexivity.
  - cbn [lines] in Hj |- *.
    destruct (Nat.leb_spec (length s) d) as [Hle|Hgt].
    + rewrite Nat.mod_small, Nat.div_small by lia.
      rewrite Nat.sub_0_r. reflexivity.
    + destruct (Nat.lt_ge_cases j d) as [Hlt|Hge].
      * rewrite nth_error_app1 by (rewrite firstn_length_le; lia).
        rewrite Nat.mod_small, Nat.div_small by lia.
        rewrite Nat.sub_0_r. cbn [Nat.eqb].
        rewrite nth_error_firstn.
        destruct (Nat.ltb_spec j d); [reflexivity|lia].
      * rewrite nth_error_app2 by (rewrite firstn_length_le; lia).
        rewrite firstn_length_le by lia.
        destruct (j - d)%nat as [|j'] eqn:Ej.
        -- assert (j = d) by lia. subst j.
           rewrite Nat.Div0.mod_same. reflexivity.
        -- cbn [nth_error].
           rewrite length_app, firstn_length_le in Hj by lia.
           simpl length in Hj.
           rewrite IH by (rewrite ?length_skipn; lia).
           replace (S j) with (S j' + 1 * S d)%nat by lia.
           rewrite Nat.Div0.mod_add, Nat.div_add by lia.
           destruct (S j' mod S d =? 0)%nat; [reflexivity|].
           rewrite nth_error_skipn.
           assert (S j' / S d <= j')%nat.
           { destruct j' as [|j'']; [rewrite Nat.div_small; lia|].
             apply Nat.lt_succ_r. apply Nat.div_lt; lia. }
           f_equal. lia.
Qed.

(** [insert_linebreaks] with a distance [d] of at least 1 returns, and lays
    its input out in lines of [d] characters: the result has one newline
    more for every [d] characters that are followed by another character
    (none at the end, none for the empty string), the newlines stand at the
    positions [d], [2d + 1], [3d + 2], ..., and the other positions hold the
    characters of the input in their order. *)
Theorem insert_linebreaks_layout (s : list ascii) (d : nat) :
  (1 <= d)%nat ->
  exists out,
    insert_linebreaks s (Z.of_nat d) = Ret out
    /\ length out = (length s + (length s - 1) / d)%nat
    /\ forall j,
         (j < length out)%nat ->
         nth_error out j
         = if (S j mod S d =? 0)%nat then Some newline
           else nth_error s (j - S j / S d).
Proof.
  intros Hd. exists (lines (length s) d s).
  split; [apply insert_linebreaks_lines, Hd|]. split.
  - apply lines_length; [exact Hd|lia].
  - intros j Hj. apply lines_nth; [exact Hd|lia|exact Hj].
Qed.

Lemma insert_linebreaks_layout_witness :
  (1 <= 2)%nat
  /\ exists out,
       insert_linebreaks (str "abcdefg") (Z.of_nat 2) = Ret out
       /\ length out = (length (str "abcdefg") + (length (str "abcdefg") - 1) / 2)%nat
       /\ forall j,
            (j < length out)%nat ->
            nth_error out j
            = if (S j mod 3 =? 0)%nat then Some newline
              else nth_error (str "abcdefg") (j - S j / 3).
Proof.
  split; [lia|].
  apply (insert_linebreaks_layout (str "abcdefg") 2). lia.
Defined.

(** ** base64_encode_pem and base64_encode_mime *)

(** PEM round trip, for every input shorter than [2^32] bytes: decoding the
    64-column output with the line-break flag set gives the input back. *)
Theorem roundtrip_pem_below_4GiB (s : list ascii) :
  len s < 2 ^ 32 -> decode_of_encode_pem s = Ret s.
Proof.
  intros Hs. unfold decode_of_encode_pem, base64_encode_pem.
  rewrite base64_encode_chunks by exact Hs. cbn [bind].
  destruct (insert_linebreaks_returns (encode_chunks false s) 64 ltac:(lia))
    as [out [-> Hout]].
  cbn [bind]. rewrite base64_decode_strip, Hout, encode_chunks_no_newline.
  apply decode_encode_chunks.
Qed.

Lemma roundtrip_pem_below_4GiB_witness :
  len (repeat "a"%char 100) < 2 ^ 32
  /\ decode_of_encode_pem (repeat "a"%char 100) = Ret (repeat "a"%char 100).
Proof.
  split; [reflexivity|]. apply roundtrip_pem_below_4GiB. reflexivity.
Defined.

Lemma erase_remove_absent_inv (c : ascii) (s : list ascii) :
  erase_remove c s = s -> ~ In c s.
Proof.
  intros H Hin. rewrite <- H in Hin. unfold erase_remove in Hin.
  apply filter_In in Hin. destruct Hin as [_ Hc].
  rewrite Ascii.eqb_refl in Hc. discriminate Hc.
Qed.

(** The layout of [insert_linebreaks] on a string without newlines: the
    newlines of the result are exactly at the ends of the full lines. *)
Lemma wrapped_layout (e : list ascii) (d : nat) :
  (1 <= d)%nat ->
  erase_remove newline e = e ->
  exists out,
    insert_linebreaks e (Z.of_nat d) = Ret out
    /\ erase_remove newline out = e
    /\ length out = (length e + (length e - 1) / d)%nat
    /\ forall j,
         (j < length out)%nat ->
         (nth_error out j = Some newline <-> (S j mod S d = 0)%nat).
Proof.
  intros Hd He.
  pose proof (insert_linebreaks_lines e d Hd) as Hout.
  pose proof (lines_length d Hd (length e) e ltac:(lia)) as Hlen.
  pose proof (fun j => lines_nth d Hd (length e) e j ltac:(lia)) as Hnth.
  set (out := lines (length e) d e) in *.
  exists out. split; [exact Hout|]. split; [|split; [exact Hlen|]].
  - destruct (insert_linebreaks_returns e (Z.of_nat d) ltac:(lia))
      as (out' & Hout' & Herase).
    rewrite Hout in Hout'. injection Hout' as <-. congruence.
  - intros j Hj. rewrite (Hnth j Hj).
    destruct (Nat.eqb_spec (S j mod S d) 0) as [E|E].
    + tauto.
    + split; [|tauto]. intros Hin. exfalso.
      apply nth_error_In in Hin.
      exact (erase_remove_absent_inv newline e He Hin).
Qed.

(** [base64_encode_pem] and [base64_encode_mime], for every input shorter
    than [2^32] bytes: the output is the standard encoding [e] of the input
    with a newline after every 64 (PEM) or 76 (MIME) characters of [e] that
    are followed by another character.  Its newlines stand exactly at the
    positions [j] with [j + 1] a multiple of 65 (PEM) or 77 (MIME), there is
    none at the end, and without them the output is [e]. *)
Theorem line_wrapped_encoders_layout (s : list ascii) :
  len s < 2 ^ 32 ->
  exists e pem mime,
    base64_encode s false = Ret e
    /\ base64_encode_pem s = Ret pem
    /\ base64_encode_mime s = Ret mime
    /\ erase_remove newline pem = e
    /\ erase_remove newline mime = e
    /\ length pem = (length e + (length e - 1) / 64)%nat
    /\ length mime = (length e + (length e - 1) / 76)%nat
    /\ (forall j, (j < length pem)%nat ->
                  (nth_error pem j = Some newline <-> (S j mod 65 = 0)%nat))
    /\ (forall j, (j < length mime)%nat ->
                  (nth_error mime j = Some newline <-> (S j mod 77 = 0)%nat)).
Proof.
  intros Hs.
  pose proof (encode_chunks_no_newline false s) as He.
  destruct (wrapped_layout (encode_chunks false s) 64 ltac:(lia) He)
    as (pem & P1 & P2 & P3 & P4).
  destruct (wrapped_layout (encode_chunks false s) 76 ltac:(lia) He)
    as (mime & M1 & M2 & M3 & M4).
  exists (encode_chunks false s), pem, mime.
  unfold base64_encode_pem, base64_encode_mime.
  rewrite base64_encode_chunks by exact Hs. cbn [bind].
  change 64 with (Z.of_nat 64). change 76 with (Z.of_nat 76).
  repeat split; try assumption; try apply P4; try apply M4; assumption.
Qed.

Lemma line_wrapped_encoders_layout_witness :
  len (repeat "a"%char 100) < 2 ^ 32
  /\ exists e pem mime,
       base64_encode (repeat "a"%char 100) false = Ret e
       /\ base64_encode_pem (repeat "a"%char 100) = Ret pem
       /\ base64_encode_mime (repeat "a"%char 100) = Ret mime
       /\ erase_remove newline pem = e
       /\ erase_remove newline mime = e
       /\ length pem = (length e + (length e - 1) / 64)%nat
       /\ length mime = (length e + (length e - 1) / 76)%nat
       /\ (forall j, (j < length pem)%nat ->
                     (nth_error pem j = Some newline <-> (S j mod 65 = 0)%nat))
       /\ (forall j, (j < length mime)%nat ->
                     (nth_error mime j = Some newline <-> (S j mod 77 = 0)%nat)).
Proof.
  split; [reflexivity|].
  apply (line_wrapped_encoders_layout (repeat "a"%char 100)). reflexivity.
Defined.

Lemma firstn_encode_chunks url (k : nat) :
  forall s,
    (3 * k <= length s)%nat ->
    firstn (4 * k) (encode_chunks url s) = encode_chunks url (firstn (3 * k) s).
Proof.
  induction k as [|k IH]; intros s Hs; [reflexivity|].
  replace (4 * S k)%nat with (S (S (S (S (4 * k))))) by lia.
  replace (3 * S k)%nat with (S (S (S (3 * k)))) by lia.
  destruct s as [|a [|b [|c rest]]]; try (simpl in Hs; lia).
  cbn [encode_chunks firstn].
  rewrite IH by (simpl in Hs; lia). reflexivity.
Qed.

Lemma lines_nonempty (fuel d : nat) (s : list ascii) :
  s <> [] -> lines fuel d s <> [].
Proof.
  intros Hs. destruct fuel as [|fuel]; [exact Hs|].
  cbn [lines]. destruct (length s <=? d)%nat; [exact Hs|].
  intros E. apply app_eq_nil in E. destruct E as [_ E]. discriminate E.
Qed.

(** A chunk that starts with a newline is refused. *)
Lemma decode_chunks_newline (x : ascii) (tl : list ascii) :
  decode_chunks (newline :: x :: tl) = Fail runtime_error.
Proof.
  destruct tl as [|y [|z rest]]; cbn [decode_chunks];
    rewrite decode_group_invalid by (left; reflexivity); reflexivity.
Qed.

(** Lines of [4k] characters of a standard encoding, more than one of them,
    scanned with their newlines: the decoder fails at the first newline. *)
Lemma decode_lines_fails (k : nat) (s : list ascii) :
  (1 <= k)%nat ->
  (4 * k < length (encode_chunks false s))%nat ->
  decode_chunks (lines (length (encode_chunks false s)) (4 * k)
                   (encode_chunks false s))
  = Fail runtime_error.
Proof.
  intros Hk Hlong.
  set (e := encode_chunks false s) in *.
  assert (Hs : (3 * k < length s)%nat).
  { pose proof (encode_chunks_length false s) as L. fold e in L.
    unfold encoded_length, len in L.
    apply Nat2Z.inj_lt. rewrite Nat2Z.inj_mul.
    apply Nat2Z.inj_lt in Hlong. rewrite Nat2Z.inj_mul in Hlong.
    rewrite L in Hlong. simpl Z.of_nat in Hlong |- *.
    Z.div_mod_to_equations; lia. }
  destruct (length e) as [|fuel] eqn:El; [lia|].
  cbn [lines]. rewrite El.
  destruct (Nat.leb_spec (S fuel) (4 * k)); [lia|].
  pose proof (lines_nonempty fuel (4 * k) (skipn (4 * k) e)) as Hne.
  destruct (lines fuel (4 * k) (skipn (4 * k) e)) as [|x tl].
  { exfalso. apply Hne; [|reflexivity].
    intros E. apply (f_equal (@length ascii)) in E.
    rewrite length_skipn, El in E. cbn [length] in E. lia. }
  rewrite decode_chunks_app.
  - unfold e at 1. rewrite firstn_encode_chunks by lia.
    rewrite decode_encode_chunks, decode_chunks_newline. reflexivity.
  - unfold len. rewrite firstn_length_le by lia.
    rewrite Nat2Z.inj_mul. simpl Z.of_nat.
    Z.div_mod_to_equations; lia.
Qed.

(** The wrapped encoders need the decoder's flag: for every input shorter
    than [2^32] bytes whose encoding takes more than one line (more than 48
    bytes for PEM, more than 57 for MIME), decoding the output with the
    line-break flag cleared fails with [runtime_error] at the first
    newline. *)
Theorem line_wrapped_needs_flag (s : list ascii) :
  len s < 2 ^ 32 ->
  (48 < len s ->
   exists pem,
     base64_encode_pem s = Ret pem
     /\ base64_decode pem false = Fail runtime_error)
  /\ (57 < len s ->
      exists mime,
        base64_encode_mime s = Ret mime
        /\ base64_decode mime false = Fail runtime_error).
Proof.
  intros Hs.
  pose proof (encode_chunks_length false s) as L.
  unfold encoded_length, len in L.
  unfold base64_encode_pem, base64_encode_mime.
  rewrite base64_encode_chunks by exact Hs. cbn [bind].
  change 64 with (Z.of_nat (4 * 16)). change 76 with (Z.of_nat (4 * 19)).
  rewrite !insert_linebreaks_lines by lia.
  split; intros Hlong; eexists; (split; [reflexivity|]);
    rewrite base64_decode_chunks; apply decode_lines_fails; try lia;
    apply Nat2Z.inj_lt; rewrite L; unfold len in Hlong;
    simpl Z.of_nat; Z.div_mod_to_equations; lia.
Qed.

Lemma line_wrapped_needs_flag_witness :
  len (repeat "a"%char 58) < 2 ^ 32
  /\ 48 < len (repeat "a"%char 58)
  /\ 57 < len (repeat "a"%char 58)
  /\ (exists pem,
         base64_encode_pem (repeat "a"%char 58) = Ret pem
         /\ base64_decode pem false = Fail runtime_error)
  /\ (exists mime,
         base64_encode_mime (repeat "a"%char 58) = Ret mime
         /\ base64_decode mime false = Fail runtime_error).
Proof.
  split; [reflexivity|]. split; [reflexivity|]. split; [reflexivity|].
  destruct (line_wrapped_needs_flag (repeat "a"%char 58) eq_refl) as [P M].
  split; [apply P|apply M]; reflexivity.
Defined.

(** ** pos_of_char *)

(** [pos_of_char] returns the position of its argument in the standard
    alphabet, and throws [runtime_error] for every other character: the
    padding characters, '-' and '_', the characters after 'z' and those with
    a code of 128 or more.  It never leaves the table. *)
Theorem pos_of_char_index (c : ascii) :
  pos_of_char c
  = match index_of c encode_table with
    | Some i => Ret i
    | None => Fail runtime_error
    end.
Proof.
  destruct c as [[] [] [] [] [] [] [] []]; vm_compute; reflexivity.
Qed.

(** ** base64_decode *)

(** Decoding works on chunks of four characters: after a whole number of
    chunks the decoder continues as on a fresh string, and the first failure
    is the one reported. *)
Theorem base64_decode_app (pre suf : list ascii) :
  len pre mod 4 = 0 ->
  base64_decode (pre ++ suf) false
  = (a <- base64_decode pre false ;;
     r <- base64_decode suf false ;;
     Ret (a ++ r)).
Proof.
  intros H. rewrite !base64_decode_chunks. apply decode_chunks_app, H.
Qed.

Lemma base64_decode_app_witness :
  len (str "TWFu") mod 4 = 0
  /\ base64_decode (str "TWFu" ++ str "TQ==") false = Ret (str "ManM").
Proof.
  split; [reflexivity|].
  exact (base64_decode_app (str "TWFu") (str "TQ==") eq_refl).
Defined.

(** The decoder always comes back.  It returns bytes or fails with
    [runtime_error], except that it can fail with [out_of_range] when the
    string it scans (the input, without its newlines when the flag is set)
    has a length of the form [4n + 1]. *)
Theorem base64_decode_failures (s : list ascii) (strip : bool) :
  (exists r, base64_decode s strip = Ret r)
  \/ base64_decode s strip = Fail runtime_error
  \/ (base64_decode s strip = Fail out_of_range
      /\ len (stripped s strip) mod 4 = 1).
Proof.
  rewrite base64_decode_stripped.
  induction (stripped s strip) as [|a|a b|a b c|a b c d rest IH] using list_ind4;
    cbn [decode_chunks]; eauto;
    match goal with
    | |- context [decode_group ?w ?x ?y ?z] =>
        destruct (decode_group w x y z) as [o|f] eqn:E;
        [|rewrite (decode_group_fails _ _ _ _ _ E); auto]
    end; eauto.
  cbn [bind]. rewrite len_four_more.
  destruct IH as [[r ->]|[->|[-> Hlen]]]; cbn [bind]; eauto.
Qed.

Lemma decode_group_length c0 c1 c2 c3 (o : list ascii) :
  decode_group c0 c1 c2 c3 = Ret o ->
  1 <= len o <= 3
  /\ (c3 = None -> len o <= 2)
  /\ (c2 = None -> len o <= 1).
Proof.
  unfold decode_group. intros H.
  destruct (pos_of_char c1) as [p1|]; cbn [bind] in H; [|discriminate H].
  destruct (pos_of_char c0) as [p0|]; cbn [bind] in H; [|discriminate H].
  repeat match type of H with
         | context [match ?x with _ => _ end] => destruct x; cbn [bind] in H
         | context [bind ?m _] => destruct m; cbn [bind] in H
         end;
    try discriminate H;
    injection H as <-; unfold len; simpl;
    repeat split; try lia; intros; try discriminate; lia.
Qed.

Lemma decode_chunks_length (s r : list ascii) :
  decode_chunks s = Ret r ->
  (len s + 3) / 4 <= len r <= len s * 3 / 4.
Proof.
  revert r.
  induction s as [|a|a b|a b c|a b c d rest IH] using list_ind4; intros r H;
    cbn [decode_chunks] in H.
  - injection H as <-. unfold len. simpl length.
    Z.div_mod_to_equations; lia.
  - discriminate H.
  - apply decode_group_length in H. destruct H as (H1 & _ & H3).
    specialize (H3 eq_refl). unfold len in *. simpl length.
    Z.div_mod_to_equations; lia.
  - apply decode_group_length in H. destruct H as (H1 & H2 & _).
    specialize (H2 eq_refl). unfold len in *. simpl length.
    Z.div_mod_to_equations; lia.
  - destruct (decode_group a b (Some c) (Some d)) as [o|] eqn:E;
      cbn [bind] in H; [|discriminate H].
    destruct (decode_chunks rest) as [r'|]; cbn [bind] in H; [|discriminate H].
    injection H as <-.
    apply decode_group_length in E. destruct E as (E & _ & _).
    specialize (IH r' eq_refl).
    rewrite len_app, !len_cons.
    pose proof (len_nonneg rest).
    Z.div_mod_to_equations; lia.
Qed.

(** When the decoder returns, every chunk of the scanned string has given
    one to three bytes: for a scanned length [n] the result has at least
    [ceil(n / 4)] and at most [floor(3n / 4)] bytes. *)
Theorem base64_decode_length (s r : list ascii) (strip : bool) :
  base64_decode s strip = Ret r ->
  (len (stripped s strip) + 3) / 4 <= len r <= len (stripped s strip) * 3 / 4.
Proof.
  rewrite base64_decode_stripped. apply decode_chunks_length.
Qed.

Lemma base64_decode_length_witness :
  base64_decode (str "TQ==") false = Ret (str "M")
  /\ (len (stripped (str "TQ==") false) + 3) / 4 <= len (str "M")
     <= len (stripped (str "TQ==") false) * 3 / 4.
Proof.
  split; [reflexivity|].
  apply (base64_decode_length (str "TQ==") (str "M") false). reflexivity.
Defined.

Lemma decode_group_two_bare (a b : ascii) :
  decode_group
    (alphabet_char false (Z.shiftr (Z.land (code a) 0xfc) 2))
    (alphabet_char false (Z.shiftl (Z.land (code a) 0x03) 4
                          + Z.shiftr (Z.land (code b) 0xf0) 4))
    (Some (alphabet_char false (Z.shiftl (Z.land (code b) 0x0f) 2)))
    None
  = Ret [a; b].
Proof.
  unfold decode_group. lookup_written.
  destruct (regroup_two a b) as (-> & ->).
  rewrite !chr_code. reflexivity.
Qed.

Lemma decode_group_one_bare (a : ascii) :
  decode_group
    (alphabet_char false (Z.shiftr (Z.land (code a) 0xfc) 2))
    (alphabet_char false (Z.shiftl (Z.land (code a) 0x03) 4))
    None None
  = Ret [a].
Proof.
  unfold decode_group. lookup_written.
  rewrite (regroup_one a).
  rewrite !chr_code. reflexivity.
Qed.

Ltac keep_written :=
  repeat match goal with
         | |- context [is_padding (alphabet_char false ?i)] =>
             rewrite (proj2 (pos_of_char_alphabet i ltac:(alphabet_index)))
         end.

Lemma decode_unpadded_chunks (s : list ascii) :
  decode_chunks (unpadded (encode_chunks false s)) = Ret s.
Proof.
  induction s as [|a|a b|a b c rest IH] using list_ind3;
    unfold unpadded in *; cbn [encode_chunks filter]; keep_written;
    cbn [negb is_padding trailing_char Ascii.eqb Bool.eqb orb andb filter
         decode_chunks].
  - reflexivity.
  - apply decode_group_one_bare.
  - apply decode_group_two_bare.
  - rewrite decode_group_three, IH. reflexivity.
Qed.

(** The decoder does not need the padding: for every input shorter than
    [2^32] bytes, the standard encoding with its '=' characters left out
    decodes to the input. *)
Theorem decode_unpadded (s : list ascii) :
  len s < 2 ^ 32 ->
  exists e,
    base64_encode s false = Ret e
    /\ base64_decode (unpadded e) false = Ret s.
Proof.
  intros Hs. exists (encode_chunks false s).
  split; [apply base64_encode_chunks, Hs|].
  rewrite base64_decode_chunks. apply decode_unpadded_chunks.
Qed.

Lemma decode_unpadded_witness :
  len (str "M") < 2 ^ 32
  /\ base64_encode (str "M") false = Ret (str "TQ==")
  /\ unpadded (str "TQ==") = str "TQ"
  /\ base64_decode (str "TQ") false = Ret (str "M").
Proof.
  split; [reflexivity|]. split; [reflexivity|]. split; [reflexivity|].
  destruct (decode_unpadded (str "M") eq_refl) as [e [H1 H2]].
  assert (E : e = str "TQ==")
    by (vm_compute in H1; injection H1 as <-; reflexivity).
  rewrite E in H2. exact H2.
Defined.

(** ** Strings over the standard alphabet *)

Lemma in_alphabet_lookup (c : ascii) :
  in_alphabet false c = true ->
  exists v, 0 <= v < 64 /\ pos_of_char c = Ret v
            /\ alphabet_char false v = c /\ is_padding c = false.
Proof.
  intros H.
  destruct (pos_of_char_cases c) as [(_ & v & Hv & E & A)|[E _]];
    [|congruence].
  exists v. repeat split; try tauto.
  rewrite <- A. apply (pos_of_char_alphabet v Hv).
Qed.

Lemma code_chr (z : Z) : 0 <= z < 256 -> code (chr z) = z.
Proof.
  intros H. unfold code, chr. rewrite Z.mod_small by exact H.
  rewrite N_ascii_embedding by lia. lia.
Qed.

(** Four six-bit values, packed into three bytes by the decoder and taken
    apart again by the encoder. *)
Lemma regroup_back (p0 p1 p2 p3 : Z) :
  0 <= p0 < 64 -> 0 <= p1 < 64 -> 0 <= p2 < 64 -> 0 <= p3 < 64 ->
  let o0 := chr (Z.shiftl p0 2 + Z.shiftr (Z.land p1 0x30) 4) in
  let o1 := chr (Z.shiftl (Z.land p1 0x0f) 4 + Z.shiftr (Z.land p2 0x3c) 2) in
  let o2 := chr (Z.shiftl (Z.land p2 0x03) 6 + p3) in
  Z.shiftr (Z.land (code o0) 0xfc) 2 = p0
  /\ Z.shiftl (Z.land (code o0) 0x03) 4 + Z.shiftr (Z.land (code o1) 0xf0) 4 = p1
  /\ Z.shiftl (Z.land (code o1) 0x0f) 2 + Z.shiftr (Z.land (code o2) 0xc0) 6 = p2
  /\ Z.land (code o2) 0x3f = p3.
Proof.
  intros H0 H1 H2 H3 o0 o1 o2.
  destruct (sextet_bits p0 H0) as (S0 & _).
  destruct (sextet_bits p1 H1) as (_ & S1 & S1' & _).
  destruct (sextet_bits p2 H2) as (_ & _ & _ & S2 & S2').
  assert (E0 : code o0 = p0 * 4 + p1 / 16).
  { unfold o0. rewrite S0, S1. apply code_chr. Z.div_mod_to_equations; lia. }
  assert (E1 : code o1 = p1 mod 16 * 16 + p2 / 4).
  { unfold o1. rewrite S1', S2. apply code_chr. Z.div_mod_to_equations; lia. }
  assert (E2 : code o2 = p2 mod 4 * 64 + p3).
  { unfold o2. rewrite S2'. apply code_chr. Z.div_mod_to_equations; lia. }
  destruct (byte_bits o0) as (-> & -> & _).
  destruct (byte_bits o1) as (_ & _ & -> & -> & _).
  destruct (byte_bits o2) as (_ & _ & _ & _ & -> & ->).
  rewrite E0, E1, E2.
  repeat split; Z.div_mod_to_equations; lia.
Qed.

Lemma alphabet_chunks_back (s : list ascii) :
  forallb (in_alphabet false) s = true ->
  len s mod 4 = 0 ->
  exists r,
    decode_chunks s = Ret r
    /\ encode_chunks false r = s
    /\ len r * 4 = len s * 3.
Proof.
  induction s as [|a|a b|a b c|a b c d rest IH] using list_ind4;
    intros Hall Hlen; try discriminate Hlen.
  - exists []. repeat split.
  - rewrite len_four_more in Hlen.
    cbn [forallb] in Hall.
    apply andb_true_iff in Hall. destruct Hall as [Ha Hall].
    apply andb_true_iff in Hall. destruct Hall as [Hb Hall].
    apply andb_true_iff in Hall. destruct Hall as [Hc Hall].
    apply andb_true_iff in Hall. destruct Hall as [Hd Hall].
    destruct (IH Hall Hlen) as (r & Hr & Er & Lr).
    destruct (in_alphabet_lookup a Ha) as (p0 & R0 & L0 & A0 & _).
    destruct (in_alphabet_lookup b Hb) as (p1 & R1 & L1 & A1 & _).
    destruct (in_alphabet_lookup c Hc) as (p2 & R2 & L2 & A2 & P2).
    destruct (in_alphabet_lookup d Hd) as (p3 & R3 & L3 & A3 & P3).
    eexists. cbn [decode_chunks]. unfold decode_group.
    rewrite L0, L1, L2, L3, P2, P3, Hr. cbn [bind app].
    split; [reflexivity|].
    destruct (regroup_back p0 p1 p2 p3 R0 R1 R2 R3) as (B0 & B1 & B2 & B3).
    cbv zeta in B0, B1, B2, B3.
    cbn [encode_chunks]. rewrite B0, B1, B2, B3, A0, A1, A2, A3, Er.
    split; [reflexivity|]. rewrite !len_cons. lia.
Qed.

(** The other round trip: a string of whole chunks over the standard
    alphabet, without padding and shorter than [2^32] characters, decodes to
    bytes whose standard encoding is the string itself. *)
Theorem encode_of_decode (s : list ascii) :
  forallb (in_alphabet false) s = true ->
  len s mod 4 = 0 ->
  len s < 2 ^ 32 ->
  exists r,
    base64_decode s false = Ret r
    /\ base64_encode r false = Ret s.
Proof.
  intros Hall Hlen Hs.
  destruct (alphabet_chunks_back s Hall Hlen) as (r & Hr & Er & Lr).
  exists r. rewrite base64_decode_chunks. split; [exact Hr|].
  rewrite base64_encode_chunks; [rewrite Er; reflexivity|].
  pose proof (len_nonneg r). pose proof (len_nonneg s). lia.
Qed.

Lemma encode_of_decode_witness :
  forallb (in_alphabet false) (str "TWFu") = true
  /\ len (str "TWFu") mod 4 = 0
  /\ len (str "TWFu") < 2 ^ 32
  /\ exists r,
       base64_decode (str "TWFu") false = Ret r
       /\ base64_encode r false = Ret (str "TWFu").
Proof.
  split; [reflexivity|]. split; [reflexivity|]. split; [reflexivity|].
  apply (encode_of_decode (str "TWFu")); reflexivity.
Defined.

Lemma decode_group_alphabet c0 c1 c2 c3 :
  in_alphabet false c0 = true ->
  in_alphabet false c1 = true ->
  match c2 with Some c => in_alphabet false c = true | None => True end ->
  match c3 with Some c => in_alphabet false c = true | None => True end ->
  exists o,
    decode_group c0 c1 c2 c3 = Ret o
    /\ len o = 1 + match c2 with
                   | Some _ => 1 + match c3 with Some _ => 1 | None => 0 end
                   | None => 0
                   end.
Proof.
  intros H0 H1 H2 H3. unfold decode_group.
  destruct (in_alphabet_lookup c0 H0) as (p0 & _ & -> & _).
  destruct (in_alphabet_lookup c1 H1) as (p1 & _ & -> & _).
  cbn [bind].
  destruct c2 as [c2|]; [|eexists; split; reflexivity].
  destruct (in_alphabet_lookup c2 H2) as (p2 & _ & -> & _ & ->).
  cbn [bind].
  destruct c3 as [c3|]; [|eexists; split; reflexivity].
  destruct (in_alphabet_lookup c3 H3) as (p3 & _ & -> & _ & ->).
  cbn [bind]. eexists; split; reflexivity.
Qed.

Lemma decode_chunks_alphabet (s : list ascii) :
  forallb (in_alphabet false) s = true ->
  len s mod 4 <> 1 ->
  exists r, decode_chunks s = Ret r /\ len r = len s * 3 / 4.
Proof.
  induction s as [|a|a b|a b c|a b c d rest IH] using list_ind4;
    intros Hall Hlen; cbn [forallb] in Hall;
    repeat match type of Hall with
           | _ && _ = true =>
               let H := fresh "H" in
               apply andb_true_iff in Hall; destruct Hall as [H Hall]
           end.
  - exists []. split; reflexivity.
  - exfalso. apply Hlen. reflexivity.
  - destruct (decode_group_alphabet a b None None H H0 I I) as (o & E & L).
    exists o. split; [exact E|]. rewrite L. reflexivity.
  - destruct (decode_group_alphabet a b (Some c) None H H0 H1 I) as (o & E & L).
    exists o. split; [exact E|]. rewrite L. reflexivity.
  - rewrite len_four_more in Hlen.
    destruct (IH Hall Hlen) as (r & Hr & Lr).
    destruct (decode_group_alphabet a b (Some c) (Some d) H H0 H1 H2)
      as (o & E & L).
    exists (o ++ r). cbn [decode_chunks]. rewrite E, Hr. cbn [bind].
    split; [reflexivity|].
    rewrite len_app, L, Lr, !len_cons. pose proof (len_nonneg rest).
    Z.div_mod_to_equations; lia.
Qed.

(** The decoder accepts every string over the standard alphabet whose
    length is not of the form [4n + 1]; the length need not be a multiple
    of 4.  It returns [floor(3n / 4)] bytes for [n] characters. *)
Theorem decode_alphabet_string (s : list ascii) :
  forallb (in_alphabet false) s = true ->
  len s mod 4 <> 1 ->
  exists r, base64_decode s false = Ret r /\ len r = len s * 3 / 4.
Proof.
  rewrite base64_decode_chunks. apply decode_chunks_alphabet.
Qed.

Lemma decode_alphabet_string_witness :
  forallb (in_alphabet false) (str "TWFuTWE") = true
  /\ len (str "TWFuTWE") mod 4 <> 1
  /\ exists r,
       base64_decode (str "TWFuTWE") false = Ret r
       /\ len r = len (str "TWFuTWE") * 3 / 4.
Proof.
  split; [reflexivity|]. split; [vm_compute; discriminate|].
  apply (decode_alphabet_string (str "TWFuTWE")).
  - reflexivity.
  - vm_compute. discriminate.
Defined.

Lemma roundtrip_url_below_4GiB_witness :
  len (str "Man") < 2 ^ 32
  /\ exists e,
       base64_encode (str "Man") true = Ret e
       /\ decode_of_encode (str "Man") true false
          = if existsb url_only e then Fail runtime_error else Ret (str "Man").
Proof.
  split; [reflexivity|].
  apply (roundtrip_url_below_4GiB (str "Man")). reflexivity.
Defined.

(** ** generate_decode_table *)

Lemma array_set_length (l : list Z) (i : nat) (v : Z) :
  length (array_set l i v) = length l.
Proof.
  revert i. induction l as [|x l IH]; intros [|i]; simpl; auto.
Qed.

Lemma array_set_same (l : list Z) (i : nat) (v : Z) :
  (i < length l)%nat -> nth_error (array_set l i v) i = Some v.
Proof.
  revert i. induction l as [|x l IH]; intros [|i] H; simpl in *;
    try lia; [reflexivity|]. apply IH. lia.
Qed.

Lemma array_set_other (l : list Z) (i k : nat) (v : Z) :
  k <> i -> nth_error (array_set l i v) k = nth_error l k.
Proof.
  revert i k. induction l as [|x l IH]; intros [|i] [|k] H; simpl;
    try reflexivity; try congruence.
  apply IH. congruence.
Qed.

Lemma code_inj (c c' : ascii) : Z.to_nat (code c) = Z.to_nat (code c') -> c = c'.
Proof.
  intros H. pose proof (code_range c). pose proof (code_range c').
  rewrite <- (chr_code c), <- (chr_code c'). f_equal. lia.
Qed.

(** The [for_each] of [generate_decode_table], from any array and any value
    of the counter. *)
Lemma for_each_store (s : list ascii) :
  forall (ret : list Z) (offset : Z),
    Forall (fun c => code c < 128 /\ code c < len ret) s ->
    NoDup s ->
    let table :=
      fst (fold_left
             (fun (st : list Z * Z) (ch : ascii) =>
                let (ret, offset) := st in
                (array_store ret (size_t_of_char ch) offset, offset + 1))
             s (ret, offset)) in
    length table = length ret
    /\ (forall i c,
           nth_error s i = Some c ->
           nth_error table (Z.to_nat (code c)) = Some (offset + Z.of_nat i))
    /\ (forall k,
           (forall c, In c s -> Z.to_nat (code c) <> k) ->
           nth_error table k = nth_error ret k).
Proof.
  induction s as [|x tl IH]; intros ret offset Hall Hnd.
  - cbn. split; [reflexivity|]. split; [|reflexivity].
    intros [|i] c H; discriminate H.
  - inversion Hall as [|? ? [Hx Hxr] Htl]; subst.
    inversion Hnd as [|? ? Hnotin Hnd']; subst.
    pose proof (code_range x) as Rx.
    assert (Estore : array_store ret (size_t_of_char x) offset
                     = array_set ret (Z.to_nat (code x)) offset).
    { unfold array_store, size_t_of_char.
      destruct (Z.ltb_spec (code x) 128); [|lia].
      rewrite in_bounds by lia. reflexivity. }
    cbn [fold_left]. rewrite Estore.
    specialize (IH (array_set ret (Z.to_nat (code x)) offset) (offset + 1)).
    destruct IH as (L & Hin & Hout); [|exact Hnd'|].
    { eapply Forall_impl; [|exact Htl]. intros c [H1 H2].
      split; [exact H1|]. unfold len in *. rewrite array_set_length. exact H2. }
    cbv zeta. split; [|split].
    + rewrite L. apply array_set_length.
    + intros [|i] c Hc.
      * injection Hc as <-. rewrite Hout.
        -- rewrite array_set_same by (unfold len in Hxr; lia).
           f_equal. simpl. lia.
        -- intros c Hc E. apply code_inj in E. subst c. exact (Hnotin Hc).
      * rewrite (Hin i c Hc). f_equal. lia.
    + intros k Hk. rewrite Hout.
      * apply array_set_other. intros E. apply (Hk x); [left; reflexivity|].
        symmetry. exact E.
      * intros c Hc. apply Hk. right. exact Hc.
Qed.

(** [generate_decode_table] on any alphabet of distinct characters with
    codes up to ['z']: the table has 123 entries, the entry at the code of
    each character of the alphabet is the position of that character, and
    every other entry is the placeholder [0xff]. *)
Theorem generate_decode_table_entries (s : list ascii) :
  Forall (fun c => code c < max_encode_char) s ->
  NoDup s ->
  length (generate_decode_table s) = 123%nat
  /\ (forall i c,
         nth_error s i = Some c ->
         nth_error (generate_decode_table s) (Z.to_nat (code c))
         = Some (Z.of_nat i))
  /\ (forall k,
         (k < 123)%nat ->
         (forall c, In c s -> Z.to_nat (code c) <> k) ->
         nth_error (generate_decode_table s) k = Some decode_placeholder).
Proof.
  intros Hall Hnd.
  destruct (for_each_store s (repeat decode_placeholder (Z.to_nat max_encode_char))
              0) as (L & Hin & Hout).
  - eapply Forall_impl; [|exact Hall]. intros c Hc. cbv beta in Hc |- *.
    change max_encode_char with 123 in Hc.
    unfold len. rewrite repeat_length.
    change (Z.of_nat (Z.to_nat max_encode_char)) with 123. lia.
  - exact Hnd.
  - cbv zeta in L, Hin, Hout. fold (generate_decode_table s) in L, Hin, Hout.
    split; [|split].
    + rewrite L. apply repeat_length.
    + intros i c Hc. rewrite (Hin i c Hc). reflexivity.
    + intros k Hk Hfree. rewrite (Hout k Hfree).
      change (Z.to_nat max_encode_char) with 123%nat.
      apply nth_error_repeat. exact Hk.
Qed.

Lemma generate_decode_table_entries_witness :
  Forall (fun c => code c < max_encode_char) encode_table_url
  /\ NoDup encode_table_url
  /\ nth_error (generate_decode_table encode_table_url) (Z.to_nat (code "_"))
     = Some 63.
Proof.
  assert (HF : Forall (fun c => code c < max_encode_char) encode_table_url).
  { apply Forall_forall. intros c Hc.
    apply forallb_forall with (x := c)
                              (f := fun c => code c <? max_encode_char)
      in Hc; [apply Z.ltb_lt, Hc|vm_compute; reflexivity]. }
  assert (HN : NoDup encode_table_url)
    by (apply nodup_check; vm_compute; reflexivity).
  split; [exact HF|]. split; [exact HN|].
  exact (proj1 (proj2 (generate_decode_table_entries encode_table_url HF HN))
           63%nat "_"%char eq_refl).
Defined.

(** ** Bits the decoder does not check *)

Lemma pos_of_char_range (c : ascii) (v : Z) :
  pos_of_char c = Ret v -> 0 <= v < 64.
Proof.
  intros H.
  destruct (pos_of_char_cases c) as [(_ & v' & Hv & E & _)|[_ E]];
    rewrite E in H; [injection H as <-; exact Hv|discriminate H].
Qed.

Lemma first_byte_high_bits (c0 c1 c1' : ascii) (v v' : Z) :
  pos_of_char c1 = Ret v ->
  pos_of_char c1' = Ret v' ->
  v / 16 = v' / 16 ->
  first_byte c0 c1 = first_byte c0 c1'.
Proof.
  intros H H' E. unfold first_byte. rewrite H, H'. cbn [bind].
  destruct (sextet_bits v (pos_of_char_range _ _ H)) as (_ & -> & _).
  destruct (sextet_bits v' (pos_of_char_range _ _ H')) as (_ & -> & _).
  rewrite E. reflexivity.
Qed.

Lemma decode_group_first_byte c0 c1 :
  decode_group c0 c1 None None = (o <- first_byte c0 c1 ;; Ret [o]).
Proof.
  unfold decode_group, first_byte.
  destruct (pos_of_char c1); [cbn [bind]|reflexivity].
  destruct (pos_of_char c0); reflexivity.
Qed.

(** The decoder does not check the bits it does not use.  In a chunk that
    gives a single byte (two characters at the end of the string, or two
    characters and a padding character) only the two high bits of the second
    character's value count: replacing that character by another one of the
    alphabet with the same two high bits changes nothing, so different
    strings decode to the same bytes. *)
Theorem decode_ignores_unused_bits (pre tail : list ascii)
  (c0 c1 c1' : ascii) (v v' : Z) :
  len pre mod 4 = 0 ->
  pos_of_char c1 = Ret v ->
  pos_of_char c1' = Ret v' ->
  v / 16 = v' / 16 ->
  match tail with [] => True | p :: _ => is_padding p = true end ->
  base64_decode (pre ++ c0 :: c1 :: tail) false
  = base64_decode (pre ++ c0 :: c1' :: tail) false.
Proof.
  intros Hpre H H' E Htail.
  rewrite !base64_decode_chunks, !(decode_chunks_app _ _ Hpre).
  pose proof (first_byte_high_bits c0 c1 c1' v v' H H' E) as F.
  destruct tail as [|p [|x rest]]; cbn [decode_chunks];
    rewrite ?decode_group_first_byte,
      ?(decode_group_padded_third c0 c1 p _ Htail),
      ?(decode_group_padded_third c0 c1' p _ Htail), F;
    reflexivity.
Qed.

Lemma decode_ignores_unused_bits_witness :
  len (@nil ascii) mod 4 = 0
  /\ pos_of_char "Q" = Ret 16
  /\ pos_of_char "R" = Ret 17
  /\ 16 / 16 = 17 / 16
  /\ base64_decode (str "TQ==") false = base64_decode (str "TR==") false.
Proof.
  split; [reflexivity|]. split; [reflexivity|]. split; [reflexivity|].
  split; [reflexivity|].
  exact (decode_ignores_unused_bits [] (str "==") "T" "Q" "R" 16 17
           eq_refl eq_refl eq_refl eq_refl eq_refl).
Defined.

End Base64.
